(** * A shallow embedding of pycurse's download engine (src/lib.rs)

    The engine is the worker loop [Downloader::thread_runner]: it pulls URLs
    from the task channel, registers curl easy handles with a curl multi
    handle, drives the multi handle and turns its completion messages into
    [Response]s pushed on the response channel.  The caller side is
    [CurlDownloader::add_request] / [CurlDownloader::fetch].

    Modelling choices:
    - libcurl's multi handle is a list of easy handles; the index of an easy
      handle in that list is its identity (the [Easy2Handle] stored in the
      [handles] map is represented by that index).
    - What the network does during one [Multi::perform] is an input, a [Tick]:
      bytes written to the [Collector]s of running transfers and the
      transfers that finish, with their transport result and the HTTP
      response code libcurl recorded.
    - A Rust panic (an [unwrap] or [expect] failing) is the [Panic] outcome.
    - Blocking and locking behaviour is recorded as a list of [Event]s. *)

From Stdlib Require Import ZArith Lia Init.Byte.
From stdpp Require Import base gmap list strings.

(* ------------------------------------------------------------------ *)
(** ** Outcomes: a value or a Rust panic *)

Inductive outcome (A : Type) : Type :=
| Ok (a : A)
| Panic (msg : string).
Arguments Ok {A} a.
Arguments Panic {A} msg.

Global Instance outcome_ret : MRet outcome := fun A a => Ok a.
Global Instance outcome_bind : MBind outcome :=
  fun A B (k : A -> outcome B) (m : outcome A) =>
    match m with
    | Ok a => k a
    | Panic msg => Panic msg
    end.

(* ------------------------------------------------------------------ *)
(** ** Data *)

(** [struct Response] *)
Record Response := mkResponse {
  url : string;
  status_code : Z;          (* i64 *)
  data : list byte;         (* Vec<u8> *)
}.

(** The result carried by a libcurl completion message ([CURLMsg]):
    [Ok(())] or a transport error ([curl::Error], by its code). *)
Inductive transfer_result :=
| TOk
| TErr (code : Z).

Inductive easy_state := Running | Finished.

(** An [Easy2Handle<Collector>] added to the multi handle. *)
Record Easy := mkEasy {
  e_url : string;                 (* request.url(&url) *)
  e_token : Z;                    (* handle.set_token(token), a usize *)
  e_body : list byte;             (* Collector.0 *)
  e_response_code : option Z;     (* handle.response_code(): Ok(u32) or Err *)
  e_state : easy_state;
}.

(** The state of the worker: the fields of [Downloader] it uses and the
    locals of [thread_runner]. *)
Record Engine := mkEngine {
  multi : list Easy;              (* let multi = Multi::new() *)
  handles : gmap Z nat;           (* HashMap<usize, Easy2Handle<Collector>> *)
  urls : gmap Z string;           (* HashMap<usize, String> *)
  last_token : Z;                 (* let mut last_token = 0 (usize) *)
  processing_requests : bool;     (* let mut processing_requests = true *)
  task_queue : list string;       (* task channel contents *)
  response_queue : list Response; (* response channel contents *)
}.

Definition set_multi (s : Engine) (m : list Easy) : Engine :=
  mkEngine m (handles s) (urls s) (last_token s) (processing_requests s)
    (task_queue s) (response_queue s).
Definition set_processing (s : Engine) (b : bool) : Engine :=
  mkEngine (multi s) (handles s) (urls s) (last_token s) b
    (task_queue s) (response_queue s).
Definition set_task_queue (s : Engine) (q : list string) : Engine :=
  mkEngine (multi s) (handles s) (urls s) (last_token s) (processing_requests s)
    q (response_queue s).
Definition set_response_queue (s : Engine) (q : list Response) : Engine :=
  mkEngine (multi s) (handles s) (urls s) (last_token s) (processing_requests s)
    (task_queue s) q.

(** [Downloader::new()] together with the locals of [thread_runner]. *)
Definition engine_init : Engine :=
  mkEngine [] ∅ ∅ 0%Z true [] [].

(** Observable blocking and locking steps. *)
Inductive Event :=
| Lock                           (* DOWNLOADER.lock() *)
| Unlock                         (* the MutexGuard is dropped *)
| TaskTryRecv                    (* task_receiver.try_recv() *)
| TaskRecvTimeout (ms : Z)       (* task_receiver.recv_timeout(ms) *)
| TaskSend                       (* task_sender.send(url) *)
| Perform                        (* multi.perform() *)
| ResponseSend                   (* response_sender.send(..) *)
| MultiWait (ms : Z)             (* multi.wait(&mut [], ms) *)
| CloneReceiver                  (* response_receiver.clone() *)
| ResponseRecvTimeout (ms : Z).  (* receiver.recv_timeout(ms) *)

Definition is_blocking (e : Event) : bool :=
  match e with
  | TaskRecvTimeout _ | MultiWait _ | ResponseRecvTimeout _ => true
  | _ => false
  end.

(** What the network does during one [multi.perform()]. *)
Record Tick := mkTick {
  tk_writes : list (nat * list byte);
  tk_done : list (nat * transfer_result * option Z);
}.

(* ------------------------------------------------------------------ *)
(** ** The multi handle (libcurl) *)

Definition is_running (e : Easy) : bool :=
  match e_state e with Running => true | Finished => false end.

(** [Collector::write]: [self.0.extend_from_slice(data)]. *)
Definition collect (e : Easy) (chunk : list byte) : Easy :=
  mkEasy (e_url e) (e_token e) (e_body e ++ chunk) (e_response_code e) (e_state e).

Definition finish (e : Easy) (code : option Z) : Easy :=
  mkEasy (e_url e) (e_token e) (e_body e) code Finished.

Definition write_chunk (m : list Easy) (w : nat * list byte) : list Easy :=
  let '(i, chunk) := w in
  match m !! i with
  | Some e => if is_running e then <[i := collect e chunk]> m else m
  | None => m
  end.

(** A transfer that finishes queues one completion message [(i, result)]. *)
Definition finish_one (acc : list Easy * list (nat * transfer_result))
    (d : nat * transfer_result * option Z) : list Easy * list (nat * transfer_result) :=
  let '(m, msgs) := acc in
  let '(i, res, code) := d in
  match m !! i with
  | Some e => if is_running e then (<[i := finish e code]> m, msgs ++ [(i, res)])
              else (m, msgs)
  | None => (m, msgs)
  end.

Fixpoint count_running (m : list Easy) : nat :=
  match m with
  | [] => O
  | e :: m' => (if is_running e then 1 else 0) + count_running m'
  end.

(** [multi.perform()] returns the number of running transfers; the
    completion messages are what [multi.messages] then yields. *)
Definition perform (m : list Easy) (tk : Tick)
    : list Easy * list (nat * transfer_result) * Z :=
  let m1 := fold_left write_chunk (tk_writes tk) m in
  let '(m2, msgs) := fold_left finish_one (tk_done tk) (m1, []) in
  (m2, msgs, Z.of_nat (count_running m2)).

(* ------------------------------------------------------------------ *)
(** ** [Downloader]: the engine loop *)

(** [usize] arithmetic of a release build: [+= 1] wraps modulo 2^64. *)
Definition wrap_usize (z : Z) : Z := z mod 2 ^ 64.

(** [Easy::url] converts the URL to a [CString], which fails on an
    interior NUL byte. *)
Fixpoint has_nul (u : string) : bool :=
  match u with
  | EmptyString => false
  | String c u' => Ascii.eqb c Ascii.zero || has_nul u'
  end.

(** libcurl refuses an option string longer than [CURL_MAX_INPUT_LENGTH]
    (8,000,000 bytes) with [CURLE_BAD_FUNCTION_ARGUMENT]. *)
Definition CURL_MAX_INPUT_LENGTH : Z := 8000000.

(** [request.url(&url)] fails: [CString::new] rejects the NUL byte, or
    [curl_easy_setopt(CURLOPT_URL)] rejects the length. *)
Definition url_rejected (u : string) : bool :=
  has_nul u || (CURL_MAX_INPUT_LENGTH <? Z.of_nat (String.length u))%Z.

(** [Downloader::get_task]: [recv_timeout(500ms)] when no download is in
    progress, [try_recv()] otherwise.  Both hand out the oldest queued task
    or fail when none is there (a task that arrives during the 500ms wait
    is one already in [q] in this model). *)
Definition get_task (processing_requests : bool) (q : list string)
    : Event * option string * list string :=
  let ev := if negb processing_requests then TaskRecvTimeout 500 else TaskTryRecv in
  match q with
  | [] => (ev, None, [])
  | u :: q' => (ev, Some u, q')
  end.

(** Lines 100-114 of [thread_runner]: a new token, a new easy handle for
    the URL added to the multi handle, and the two map insertions. *)
Definition register (s : Engine) (u : string) : outcome Engine :=
  let token := last_token s in
  let last_token' := wrap_usize (token + 1) in
  if url_rejected u then Panic "request.url(&url).unwrap()"%string
  else
    let idx := length (multi s) in
    Ok (mkEngine (multi s ++ [mkEasy u token [] None Running])
          (<[token := idx]> (handles s))
          (<[token := u]> (urls s))
          last_token' (processing_requests s) (task_queue s) (response_queue s)).

Definition missing_entry_msg : string :=
  "the download value should exist in the HashMap".

(** The closure given to [multi.messages] (lines 129-158), for one
    completion message of easy handle [i] with transport result [res]. *)
Definition process_message (s : Engine) (msg : nat * transfer_result)
    : outcome Response :=
  let '(i, res) := msg in
  match multi s !! i with
  | None => Panic "message for an easy handle outside the multi handle"%string
  | Some e =>
    (* message.token() *)
    let token := e_token e in
    match handles s !! token with
    | None => Panic missing_entry_msg
    | Some h =>
      (* message.result_for2(&handle): None unless the message is about h *)
      if negb (Nat.eqb h i) then Panic "token mismatch with the `EasyHandle`"%string
      else
        match res with
        | TOk =>
          match e_response_code e with
          | None => Panic "HTTP request finished without status code"%string
          | Some http_status =>
            match urls s !! token with
            | None => Panic "urls[&token]"%string
            | Some u => Ok (mkResponse u http_status (e_body e))
            end
          end
        | TErr _ =>
          match urls s !! token with
          | None => Panic "urls[&token]"%string
          | Some u => Ok (mkResponse u (-1) [])
          end
        end
    end
  end.

Definition push_response (s : Engine) (r : Response) : Engine :=
  set_response_queue s (response_queue s ++ [r]).

(** [multi.messages(..)]: each message in turn; the responses go to the
    unbounded response channel, whose [send] cannot fail while the
    [Downloader] holds the receiver. *)
Fixpoint messages (s : Engine) (msgs : list (nat * transfer_result))
    : outcome (Engine * list Event) :=
  match msgs with
  | [] => Ok (s, [])
  | m :: rest =>
    r ← process_message s m;
    res ← messages (push_response s r) rest;
    mret (res.1, ResponseSend :: res.2)
  end.

(** One iteration of [while self.running { .. }] (lines 93-166).
    [multi.perform()] and [multi.wait(..)] are taken to succeed. *)
(** Lines 95-119: pull one task and, on success, register it. *)
Definition pull_task (s : Engine) : Event * outcome Engine :=
  let '(ev_pull, got, q') := get_task (processing_requests s) (task_queue s) in
  let s0 := set_task_queue s q' in
  (ev_pull, match got with
            | Some u => register (set_processing s0 true) u
            | None => Ok s0
            end).

Definition iteration (s : Engine) (tk : Tick) : outcome (Engine * list Event) :=
  let '(ev_pull, o1) := pull_task s in
  s1 ← o1;
  let '(m2, msgs, running) := perform (multi s1) tk in
  let s2 := set_multi s1 m2 in
  let s3 := if Z.eqb running 0 then set_processing s2 false else s2 in
  res ← messages s3 msgs;
  let s4 := res.1 in
  let ev_wait := if processing_requests s4 then [MultiWait 10] else [] in
  mret (s4, [ev_pull; Perform] ++ res.2 ++ ev_wait).

(** The loop, one iteration per [Tick]; [None] when an iteration panicked.
    [self.running] is only cleared by [Drop], which cannot run while the
    loop borrows the [Downloader], so the loop never leaves by its guard. *)
Fixpoint thread_runner (s : Engine) (tks : list Tick) : list Event * option Engine :=
  match tks with
  | [] => ([], Some s)
  | tk :: rest =>
    match iteration s tk with
    | Panic _ => ([], None)
    | Ok (s', evs) =>
      let '(evs', r) := thread_runner s' rest in (evs ++ evs', r)
    end
  end.

(** The thread spawned by [pycurse] (lines 250-253): it locks [DOWNLOADER]
    and runs [thread_runner] with the guard alive; the guard is dropped
    only when the thread unwinds from a panic. *)
Definition worker_thread (tks : list Tick) : list Event :=
  let '(evs, r) := thread_runner engine_init tks in
  Lock :: evs ++ match r with None => [Unlock] | Some _ => [] end.

(* ------------------------------------------------------------------ *)
(** ** The Python-facing side: [CurlDownloader] *)

(** UTF-8 validation as done by [str::from_utf8] (Unicode Table 3-7:
    no overlong forms, no surrogates, nothing above U+10FFFF). *)
Definition in_range (lo hi b : Z) : bool := (lo <=? b)%Z && (b <=? hi)%Z.
Definition cont_byte (b : Z) : bool := in_range 128 191 b.

Fixpoint utf8_valid (l : list Z) : bool :=
  match l with
  | [] => true
  | b0 :: r =>
    if (b0 <? 128)%Z then utf8_valid r
    else if in_range 194 223 b0 then
      match r with
      | b1 :: r1 => cont_byte b1 && utf8_valid r1
      | [] => false
      end
    else if in_range 224 239 b0 then
      match r with
      | b1 :: b2 :: r2 =>
        (if (b0 =? 224)%Z then in_range 160 191 b1
         else if (b0 =? 237)%Z then in_range 128 159 b1
         else cont_byte b1) && cont_byte b2 && utf8_valid r2
      | _ => false
      end
    else if in_range 240 244 b0 then
      match r with
      | b1 :: b2 :: b3 :: r3 =>
        (if (b0 =? 240)%Z then in_range 144 191 b1
         else if (b0 =? 244)%Z then in_range 128 143 b1
         else cont_byte b1) && cont_byte b2 && cont_byte b3 && utf8_valid r3
      | _ => false
      end
    else false
  end.

Definition byte_val (b : byte) : Z := Z.of_N (Byte.to_N b).

(** [str::from_utf8]: the same bytes viewed as a [str], or an error. *)
Definition from_utf8 (bs : list byte) : option (list byte) :=
  if utf8_valid (map byte_val bs) then Some bs else None.

(** [#[pyclass] struct ResponsePython]; [data] is a [String]. *)
Record ResponsePython := mkResponsePython {
  py_url : string;
  py_status_code : Z;
  py_data : list byte;
}.

(** [CurlDownloader::add_request] (lines 215-219): lock, send the task on
    the unbounded channel, drop the guard at the end of the body. *)
Definition add_request (s : Engine) (u : string) : Engine * list Event :=
  (set_task_queue s (task_queue s ++ [u]), [Lock; TaskSend; Unlock]).

Definition from_utf8_msg : string := "str::from_utf8(&response.data).unwrap()".

(** The body of [CurlDownloader::fetch] (lines 226-240) once the lock is
    taken.  [q] is the response channel as [recv_timeout] finds it within
    the timeout: empty means the timeout elapsed. *)
Definition fetch_body (q : list Response)
    : outcome (option ResponsePython * list Response) :=
  match q with
  | [] => Ok (None, [])
  | r :: q' =>
    match from_utf8 (data r) with
    | None => Panic from_utf8_msg
    | Some d => Ok (Some (mkResponsePython (url r) (status_code r) d), q')
    end
  end.

(** [CurlDownloader::fetch] as events: the guard [downloader] lives until
    the end of the function body, after [recv_timeout]. *)
Definition fetch_events (timeout : Z) : list Event :=
  [Lock; CloneReceiver; ResponseRecvTimeout timeout; Unlock].

(** Whether some blocking wait happens while [DOWNLOADER] is locked by
    the thread producing [evs]. *)
Fixpoint blocking_while_locked (locked : bool) (evs : list Event) : bool :=
  match evs with
  | [] => false
  | Lock :: r => blocking_while_locked true r
  | Unlock :: r => blocking_while_locked false r
  | e :: r => (locked && is_blocking e) || blocking_while_locked locked r
  end.

(* ------------------------------------------------------------------ *)
(** ** Reachable engine states *)

(** The worker runs iterations; callers append tasks and take responses. *)
Inductive reachable : Engine -> Prop :=
| reach_init : reachable engine_init
| reach_iter s tk s' evs :
    reachable s -> iteration s tk = Ok (s', evs) -> reachable s'
| reach_submit s u :
    reachable s -> reachable (set_task_queue s (task_queue s ++ [u]))
| reach_take s r q :
    reachable s -> response_queue s = r :: q -> reachable (set_response_queue s q).

(* ------------------------------------------------------------------ *)
(** ** Sample runs *)

Definition url_a : string := "http://a.test/".
Definition url_b : string := "http://b.test/".
Definition tick_idle : Tick := mkTick [] [].
Definition body_ok : list byte := [x68; x69].   (* "hi" *)

Definition two_tasks : Engine := set_task_queue engine_init [url_a; url_b].

Example sample_two_round :
  match iteration two_tasks tick_idle with
  | Ok (s1, _) =>
    match iteration s1 (mkTick [(1%nat, body_ok)] [(1%nat, TOk, Some 404%Z); (0%nat, TErr 6, None)]) with
    | Ok (s2, evs) => Some (response_queue s2, evs, size (urls s2))
    | Panic _ => None
    end
  | Panic _ => None
  end =
  Some ([mkResponse url_b 404 body_ok; mkResponse url_a (-1) []],
        [TaskTryRecv; Perform; ResponseSend; ResponseSend],
        2%nat).
Proof. vm_compute. reflexivity. Qed.

(* ------------------------------------------------------------------ *)
(** ** The multi handle keeps each transfer's URL and token *)

Definition e_key (e : Easy) : string * Z := (e_url e, e_token e).

Definition not_running (e : Easy) : Prop := is_running e = false.

Lemma write_chunk_keys (m : list Easy) w :
  e_key <$> write_chunk m w = e_key <$> m.
Proof.
  destruct w as [i chunk]; unfold write_chunk.
  destruct (m !! i) as [e|] eqn:Hi; [|done].
  destruct (is_running e); [|done].
  rewrite list_fmap_insert. apply list_insert_id.
  rewrite list_lookup_fmap, Hi. done.
Qed.

Lemma finish_one_keys (acc : list Easy * list (nat * transfer_result)) d :
  e_key <$> (finish_one acc d).1 = e_key <$> acc.1.
Proof.
  destruct acc as [m msgs], d as [[i res] code]; unfold finish_one.
  destruct (m !! i) as [e|] eqn:Hi; [|done].
  destruct (is_running e); [|done]. simpl.
  rewrite list_fmap_insert. apply list_insert_id.
  rewrite list_lookup_fmap, Hi. done.
Qed.

Lemma fold_write_chunk_keys ws (m : list Easy) :
  e_key <$> fold_left write_chunk ws m = e_key <$> m.
Proof.
  revert m; induction ws as [|w ws IH]; intros m; [done|].
  simpl. rewrite IH. apply write_chunk_keys.
Qed.

Lemma fold_finish_one_keys ds (acc : list Easy * list (nat * transfer_result)) :
  e_key <$> (fold_left finish_one ds acc).1 = e_key <$> acc.1.
Proof.
  revert acc; induction ds as [|d ds IH]; intros acc; [done|].
  simpl. rewrite IH. apply finish_one_keys.
Qed.

Lemma perform_keys (m : list Easy) tk m2 msgs running :
  perform m tk = (m2, msgs, running) -> e_key <$> m2 = e_key <$> m.
Proof.
  unfold perform.
  destruct (fold_left finish_one (tk_done tk) (fold_left write_chunk (tk_writes tk) m, []))
    as [m2' msgs'] eqn:Hf.
  intros [= <- _ _].
  pose proof (fold_finish_one_keys (tk_done tk) (fold_left write_chunk (tk_writes tk) m, []))
    as Hk.
  rewrite Hf in Hk. simpl in Hk. rewrite Hk. apply fold_write_chunk_keys.
Qed.

Lemma perform_running (m : list Easy) tk m2 msgs running :
  perform m tk = (m2, msgs, running) -> running = Z.of_nat (count_running m2).
Proof.
  unfold perform.
  destruct (fold_left finish_one _ _) as [m2' msgs'].
  intros [= <- _ <-]. done.
Qed.

(** A multi handle with no running transfer is left as it is. *)
Lemma write_chunk_idle (m : list Easy) w :
  Forall not_running m -> write_chunk m w = m.
Proof.
  intros Hm. destruct w as [i chunk]; unfold write_chunk.
  destruct (m !! i) as [e|] eqn:Hi; [|done].
  rewrite (Forall_lookup_1 _ _ _ _ Hm Hi). done.
Qed.

Lemma fold_finish_one_idle ds (m : list Easy) msgs :
  Forall not_running m -> fold_left finish_one ds (m, msgs) = (m, msgs).
Proof.
  intros Hm. revert msgs; induction ds as [|[[i res] code] ds IH]; intros msgs; [done|].
  simpl. destruct (m !! i) as [e|] eqn:Hi; [|apply IH].
  rewrite (Forall_lookup_1 _ _ _ _ Hm Hi). apply IH.
Qed.

Lemma count_running_zero (m : list Easy) :
  count_running m = 0 <-> Forall not_running m.
Proof.
  induction m as [|e m IH]; simpl.
  - split; [constructor | done].
  - rewrite Forall_cons, <- IH. unfold not_running.
    destruct (is_running e).
    + split; [lia | intros [H _]; done].
    + split; [intros H; split; [done | lia] | intros [_ H]; lia].
Qed.

Lemma perform_idle (m : list Easy) tk :
  Forall not_running m -> perform m tk = (m, [], 0%Z).
Proof.
  intros Hm. unfold perform.
  assert (Hw : fold_left write_chunk (tk_writes tk) m = m).
  { generalize (tk_writes tk); intros ws; induction ws as [|w ws IH]; [done|].
    simpl. rewrite write_chunk_idle by done. apply IH. }
  rewrite Hw, fold_finish_one_idle by done.
  apply count_running_zero in Hm. rewrite Hm. done.
Qed.

(* ------------------------------------------------------------------ *)
(** ** Shape of one iteration *)

Lemma messages_spec s msgs s' evs :
  messages s msgs = Ok (s', evs) ->
  exists rs, s' = set_response_queue s (response_queue s ++ rs) /\
    evs = (fun _ => ResponseSend) <$> rs /\
    Forall2 (fun m r => process_message s m = Ok r) msgs rs.
Proof.
  revert s s' evs; induction msgs as [|m msgs IH]; intros s s' evs Hm; simpl in Hm.
  - injection Hm as <- <-. exists []. rewrite app_nil_r.
    destruct s; done.
  - destruct (process_message s m) as [r|msg] eqn:Hr; [|discriminate].
    simpl in Hm.
    destruct (messages (push_response s r) msgs) as [[s'' evs'']|msg] eqn:Hrest;
      [|discriminate].
    simpl in Hm. injection Hm as <- <-.
    destruct (IH _ _ _ Hrest) as (rs & -> & -> & Hall).
    exists (r :: rs). split; [|split].
    + simpl. rewrite <- app_assoc. done.
    + done.
    + constructor; [done|]. exact Hall.
Qed.

(** One iteration: pull, perform, mode switch, completions, wait. *)
Lemma iteration_spec s tk s' evs :
  iteration s tk = Ok (s', evs) ->
  exists ev s1 msgs running rs,
    pull_task s = (ev, Ok s1) /\
    perform (multi s1) tk = (multi s', msgs, running) /\
    let s3 := if Z.eqb running 0
              then set_processing (set_multi s1 (multi s')) false
              else set_multi s1 (multi s') in
    s' = set_response_queue s3 (response_queue s3 ++ rs) /\
    Forall2 (fun m r => process_message s3 m = Ok r) msgs rs /\
    evs = [ev; Perform] ++ ((fun _ => ResponseSend) <$> rs) ++
          (if processing_requests s3 then [MultiWait 10%Z] else []).
Proof.
  unfold iteration. destruct (pull_task s) as [ev o1] eqn:Hp.
  destruct o1 as [s1|msg]; simpl; [|discriminate].
  destruct (perform (multi s1) tk) as [[m2 msgs] running] eqn:Hperf.
  set (s3 := if Z.eqb running 0 then set_processing (set_multi s1 m2) false
             else set_multi s1 m2).
  destruct (messages s3 msgs) as [[s4 evs4]|msg] eqn:Hm; simpl; [|discriminate].
  intros [= <- <-].
  destruct (messages_spec _ _ _ _ Hm) as (rs & Hs4 & Hevs & Hall).
  assert (Hm2 : multi s4 = m2).
  { rewrite Hs4. unfold s3. destruct (Z.eqb running 0); done. }
  exists ev, s1, msgs, running, rs. rewrite Hm2.
  split; [done|]. split; [done|]. fold s3.
  split; [exact Hs4|]. split; [exact Hall|].
  rewrite Hevs. rewrite Hs4. done.
Qed.

(* ------------------------------------------------------------------ *)
(** ** The engine invariant *)

Record engine_inv (s : Engine) : Prop := {
  inv_last_token : last_token s = wrap_usize (Z.of_nat (length (multi s)));
  inv_tokens : forall i e, multi s !! i = Some e -> e_token e = wrap_usize (Z.of_nat i);
  inv_handles : forall t j, handles s !! t = Some j ->
    exists e, multi s !! j = Some e /\ e_token e = t /\ urls s !! t = Some (e_url e);
  inv_entries : forall i e, multi s !! i = Some e -> is_Some (handles s !! e_token e);
  inv_idle : processing_requests s = false -> Forall not_running (multi s);
}.

Lemma inv_init : engine_inv engine_init.
Proof.
  constructor; simpl; try done.
Qed.

Lemma inv_set_response_queue s q : engine_inv s -> engine_inv (set_response_queue s q).
Proof. intros []; constructor; done. Qed.

Lemma inv_set_task_queue s q : engine_inv s -> engine_inv (set_task_queue s q).
Proof. intros []; constructor; done. Qed.

Lemma inv_register s u s' :
  engine_inv s -> processing_requests s = true -> register s u = Ok s' ->
  engine_inv s' /\ processing_requests s' = true.
Proof.
  intros [Hlt Htok Hh Hent Hidle] Hpr. unfold register.
  destruct (url_rejected u); [discriminate|]. intros [= <-].
  split; [|done].
  set (n := length (multi s)).
  constructor; simpl.
  - rewrite length_app. simpl. rewrite Hlt. unfold wrap_usize.
    rewrite Zplus_mod_idemp_l. f_equal. lia.
  - intros i e Hi. apply lookup_snoc_Some in Hi as [[Hlt' Hi] | [-> <-]].
    + by apply Htok.
    + simpl. rewrite Hlt. done.
  - intros t j Ht. rewrite lookup_insert in Ht. case_decide as Heq.
    + injection Ht as <-. subst t.
      exists (mkEasy u (last_token s) [] None Running). split; [|split].
      * rewrite lookup_app_r by lia. rewrite Nat.sub_diag. done.
      * done.
      * rewrite lookup_insert_eq. done.
    + destruct (Hh _ _ Ht) as (e & He & Het & Hu).
      exists e. split; [|split; [done|]].
      * rewrite lookup_app_l; [done|]. eapply lookup_lt_Some; exact He.
      * rewrite lookup_insert_ne by done. done.
  - intros i e Hi. apply lookup_snoc_Some in Hi as [[Hlt' Hi] | [-> <-]].
    + rewrite lookup_insert. case_decide; [done|]. eapply Hent; exact Hi.
    + simpl. rewrite lookup_insert_eq. done.
  - intros Hf. congruence.
Qed.

(** The maps and the multi handle's keys decide everything the
    invariant says except the mode flag. *)
Lemma inv_same_keys s s' :
  engine_inv s ->
  e_key <$> multi s' = e_key <$> multi s ->
  handles s' = handles s -> urls s' = urls s -> last_token s' = last_token s ->
  (processing_requests s' = false -> Forall not_running (multi s')) ->
  engine_inv s'.
Proof.
  intros [Hlt Htok Hh Hent Hidle] Hk Hhs Hus Hls Hidle'.
  assert (Hlook : forall i e', multi s' !! i = Some e' ->
            exists e, multi s !! i = Some e /\ e_url e' = e_url e /\ e_token e' = e_token e).
  { intros i e' Hi. pose proof (f_equal (fun l => l !! i) Hk) as Hki. simpl in Hki.
    rewrite !list_lookup_fmap, Hi in Hki.
    destruct (multi s !! i) as [e|] eqn:He; simpl in Hki; [|discriminate].
    assert (Hkey : e_key e' = e_key e) by congruence.
    unfold e_key in Hkey. injection Hkey as H1 H2.
    exists e. done. }
  assert (Hlook' : forall i e, multi s !! i = Some e ->
            exists e', multi s' !! i = Some e' /\ e_url e' = e_url e /\ e_token e' = e_token e).
  { intros i e Hi. pose proof (f_equal (fun l => l !! i) Hk) as Hki. simpl in Hki.
    rewrite !list_lookup_fmap, Hi in Hki.
    destruct (multi s' !! i) as [e'|] eqn:He'; simpl in Hki; [|discriminate].
    assert (Hkey : e_key e = e_key e') by congruence.
    unfold e_key in Hkey. injection Hkey as H1 H2.
    exists e'. done. }
  assert (Hlen : length (multi s') = length (multi s)).
  { rewrite <- (length_fmap e_key (multi s')), Hk, length_fmap. done. }
  constructor.
  - rewrite Hls, Hlen. done.
  - intros i e' Hi. destruct (Hlook _ _ Hi) as (e & He & _ & ->). eapply Htok; exact He.
  - intros t j Ht. rewrite Hhs in Ht. destruct (Hh _ _ Ht) as (e & He & Het & Hu).
    destruct (Hlook' _ _ He) as (e' & He' & Hu' & Ht').
    exists e'. rewrite Hus, Hu', Ht'. done.
  - intros i e' Hi. destruct (Hlook _ _ Hi) as (e & He & _ & ->). rewrite Hhs.
    eapply Hent; exact He.
  - exact Hidle'.
Qed.

Lemma pull_task_spec s ev s1 :
  engine_inv s -> pull_task s = (ev, Ok s1) ->
  engine_inv s1 /\
  ev = (if processing_requests s then TaskTryRecv else TaskRecvTimeout 500%Z) /\
  response_queue s1 = response_queue s /\
  (task_queue s <> [] -> processing_requests s1 = true) /\
  (task_queue s = [] -> s1 = set_task_queue s []).
Proof.
  intros Hinv. unfold pull_task, get_task.
  destruct (task_queue s) as [|u q] eqn:Hq; simpl.
  - intros [= <- <-]. split; [by apply inv_set_task_queue|].
    split; [by destruct (processing_requests s)|]. done.
  - destruct (register _ u) as [s1'|msg] eqn:Hr; [|intros [= _]; discriminate].
    intros [= <- <-].
    assert (Hinv0 : engine_inv (set_processing (set_task_queue s q) true)).
    { destruct Hinv; constructor; done. }
    destruct (inv_register _ _ _ Hinv0 eq_refl Hr) as [Hinv1 Hpr1].
    split; [done|]. split; [by destruct (processing_requests s)|].
    split; [|split; [done | discriminate]].
    unfold register in Hr. destruct (url_rejected u); [discriminate|].
    injection Hr as <-. done.
Qed.

Lemma inv_iteration s tk s' evs :
  engine_inv s -> iteration s tk = Ok (s', evs) -> engine_inv s'.
Proof.
  intros Hinv Hit.
  destruct (iteration_spec _ _ _ _ Hit) as (ev & s1 & msgs & running & rs & Hp & Hperf & Hs' & _ & _).
  destruct (pull_task_spec _ _ _ Hinv Hp) as (Hinv1 & _ & _ & _ & _).
  rewrite Hs'. apply inv_set_response_queue.
  apply (inv_same_keys s1).
  - exact Hinv1.
  - destruct (Z.eqb running 0); simpl; eapply perform_keys; exact Hperf.
  - destruct (Z.eqb running 0); done.
  - destruct (Z.eqb running 0); done.
  - destruct (Z.eqb running 0); done.
  - destruct (Z.eqb running 0) eqn:Hz; simpl; intros Hpr.
    + apply count_running_zero. apply perform_running in Hperf. lia.
    + exfalso. pose proof (inv_idle _ Hinv1 Hpr) as Hidle.
      rewrite (perform_idle _ tk Hidle) in Hperf. injection Hperf as _ _ <-. done.
Qed.

Lemma reachable_inv s : reachable s -> engine_inv s.
Proof.
  induction 1.
  - apply inv_init.
  - eapply inv_iteration; eassumption.
  - by apply inv_set_task_queue.
  - by apply inv_set_response_queue.
Qed.

(* ------------------------------------------------------------------ *)
(** ** Completions *)

Lemma process_message_response_queue s q m :
  process_message (set_response_queue s q) m = process_message s m.
Proof. reflexivity. Qed.

(** The responses one iteration pushes are those [process_message]
    gives for the completion messages of [multi.perform()], in order. *)
Lemma iteration_responses s tk s' evs :
  engine_inv s -> iteration s tk = Ok (s', evs) ->
  exists ev s1 msgs running rs,
    pull_task s = (ev, Ok s1) /\
    perform (multi s1) tk = (multi s', msgs, running) /\
    response_queue s' = response_queue s ++ rs /\
    Forall2 (fun m r => process_message s' m = Ok r) msgs rs.
Proof.
  intros Hinv Hit.
  destruct (iteration_spec _ _ _ _ Hit)
    as (ev & s1 & msgs & running & rs & Hp & Hperf & Hs' & Hall & _).
  destruct (pull_task_spec _ _ _ Hinv Hp) as (_ & _ & Hrq & _ & _).
  exists ev, s1, msgs, running, rs. split; [done|]. split; [done|].
  split.
  - rewrite Hs'. simpl. destruct (Z.eqb running 0); simpl; rewrite Hrq; done.
  - eapply Forall2_impl; [exact Hall|]. intros m r Hm.
    rewrite Hs', process_message_response_queue. exact Hm.
Qed.

Lemma process_message_url s i res r :
  engine_inv s -> process_message s (i, res) = Ok r ->
  exists e, multi s !! i = Some e /\ url r = e_url e.
Proof.
  intros Hinv. unfold process_message.
  destruct (multi s !! i) as [e|] eqn:Hi; [|discriminate].
  destruct (handles s !! e_token e) as [h|] eqn:Hh; [|discriminate].
  destruct (Nat.eqb h i) eqn:Hhi; simpl; [|discriminate].
  apply Nat.eqb_eq in Hhi. subst h.
  destruct (inv_handles _ Hinv _ _ Hh) as (e' & He' & _ & Hu).
  rewrite Hi in He'. injection He' as <-. rewrite Hu.
  intros Hr. exists e. split; [done|].
  destruct res; [destruct (e_response_code e)|]; simplify_eq; done.
Qed.

Lemma process_message_status s i res r e :
  multi s !! i = Some e -> process_message s (i, res) = Ok r ->
  (res = TOk -> Some (status_code r) = e_response_code e /\ data r = e_body e) /\
  (forall c, res = TErr c -> status_code r = (-1)%Z /\ data r = []).
Proof.
  intros Hi. unfold process_message. rewrite Hi.
  destruct (handles s !! e_token e) as [h|]; [|discriminate].
  destruct (Nat.eqb h i); simpl; [|discriminate].
  destruct res as [|code].
  - destruct (e_response_code e) as [st|] eqn:Hc; [|discriminate].
    destruct (urls s !! e_token e); [|discriminate].
    intros [= <-]. split; [done|]. intros c Hc'. discriminate.
  - destruct (urls s !! e_token e); [|discriminate].
    intros [= <-]. split; [discriminate|]. done.
Qed.

(** What an iteration from [s] to [s'] on [tk] pushes: one response [r]
    per completion message [m] of [multi.perform()], each satisfying
    [P s' m r]. *)
Definition responses_from_completions
    (P : Engine -> nat * transfer_result -> Response -> Prop)
    (s : Engine) (tk : Tick) (s' : Engine) : Prop :=
  exists ev s1 msgs running rs,
    pull_task s = (ev, Ok s1) /\
    perform (multi s1) tk = (multi s', msgs, running) /\
    response_queue s' = response_queue s ++ rs /\
    Forall2 (P s') msgs rs.

(** The response carries the URL of the transfer the message is about. *)
Definition url_of_transfer (s' : Engine) (m : nat * transfer_result) (r : Response) : Prop :=
  exists e, multi s' !! m.1 = Some e /\ url r = e_url e.

(** The response carries the status and body the transfer ended with. *)
Definition status_of_transfer (s' : Engine) (m : nat * transfer_result) (r : Response) : Prop :=
  exists e, multi s' !! m.1 = Some e /\
    (m.2 = TOk -> Some (status_code r) = e_response_code e /\ data r = e_body e) /\
    (forall c, m.2 = TErr c -> status_code r = (-1)%Z /\ data r = []).

(** A run used by the witnesses: one URL submitted, the server answers
    404 with a body in the first iteration. *)
Definition sample_start : Engine := set_task_queue engine_init [url_a].
Definition sample_tick : Tick := mkTick [(0%nat, body_ok)] [(0%nat, TOk, Some 404%Z)].
Definition sample_after : Engine * list Event :=
  match iteration sample_start sample_tick with
  | Ok p => p
  | Panic _ => (engine_init, [])
  end.

Lemma sample_start_reachable : reachable sample_start.
Proof. exact (reach_submit engine_init url_a reach_init). Qed.

Lemma sample_iteration :
  iteration sample_start sample_tick = Ok (sample_after.1, sample_after.2).
Proof. vm_compute. reflexivity. Qed.

Example sample_response :
  response_queue sample_after.1 = [mkResponse url_a 404 body_ok].
Proof. vm_compute. reflexivity. Qed.

(** C1: In every iteration of the engine loop, each Response pushed on the
    response channel is built from one completion message, and its [url]
    is the URL given to [request.url] for the easy handle that message is
    about, i.e. the URL of the task that created that transfer; token
    correlation never hands a transfer another transfer's URL. *)
Theorem response_url_is_request_url s tk s' evs :
  reachable s -> iteration s tk = Ok (s', evs) ->
  responses_from_completions url_of_transfer s tk s'.
Proof.
  intros Hr Hit.
  assert (Hinv' : engine_inv s') by (apply reachable_inv; eapply reach_iter; eassumption).
  destruct (iteration_responses _ _ _ _ (reachable_inv _ Hr) Hit)
    as (ev & s1 & msgs & running & rs & Hp & Hperf & Hrq & Hall).
  exists ev, s1, msgs, running, rs. do 3 (split; [done|]).
  eapply Forall2_impl; [exact Hall|]. intros [i res] r Hm.
  exact (process_message_url _ _ _ _ Hinv' Hm).
Qed.

Lemma response_url_is_request_url_witness :
  reachable sample_start /\
  iteration sample_start sample_tick = Ok (sample_after.1, sample_after.2) /\
  responses_from_completions url_of_transfer sample_start sample_tick sample_after.1.
Proof.
  split; [exact sample_start_reachable|]. split; [exact sample_iteration|].
  exact (response_url_is_request_url sample_start sample_tick sample_after.1 sample_after.2
           sample_start_reachable sample_iteration).
Defined.

(** C2: For every completion message handled in an iteration, the pushed
    Response has, when the transfer succeeded at the transport level,
    [status_code] equal to the response code libcurl recorded for the
    transfer (any value, 404 included) and [data] equal to the bytes the
    [Collector] accumulated; when the transfer failed at the transport
    level, [status_code] is -1 and [data] is empty. *)
Theorem response_status_and_body s tk s' evs :
  reachable s -> iteration s tk = Ok (s', evs) ->
  responses_from_completions status_of_transfer s tk s'.
Proof.
  intros Hr Hit.
  destruct (iteration_responses _ _ _ _ (reachable_inv _ Hr) Hit)
    as (ev & s1 & msgs & running & rs & Hp & Hperf & Hrq & Hall).
  exists ev, s1, msgs, running, rs. do 3 (split; [done|]).
  eapply Forall2_impl; [exact Hall|]. intros [i res] r Hm.
  assert (Hi : is_Some (multi s' !! i)).
  { unfold process_message in Hm. destruct (multi s' !! i); [eauto | discriminate]. }
  destruct Hi as [e He]. exists e. split; [exact He|].
  exact (process_message_status _ _ _ _ _ He Hm).
Qed.

Lemma response_status_and_body_witness :
  reachable sample_start /\
  iteration sample_start sample_tick = Ok (sample_after.1, sample_after.2) /\
  responses_from_completions status_of_transfer sample_start sample_tick sample_after.1.
Proof.
  split; [exact sample_start_reachable|]. split; [exact sample_iteration|].
  exact (response_status_and_body sample_start sample_tick sample_after.1 sample_after.2
           sample_start_reachable sample_iteration).
Defined.

(* ------------------------------------------------------------------ *)
(** ** Nothing is ever removed *)

Lemma pull_task_grows s ev s1 :
  pull_task s = (ev, Ok s1) ->
  dom (handles s) ⊆ dom (handles s1) /\ dom (urls s) ⊆ dom (urls s1) /\
  (e_key <$> multi s) `prefix_of` (e_key <$> multi s1).
Proof.
  unfold pull_task, get_task.
  destruct (task_queue s) as [|u q]; simpl.
  - intros [= _ <-]. done.
  - unfold register. destruct (url_rejected u); simpl; [intros [= _]; discriminate|].
    intros [= _ <-]. simpl. rewrite !dom_insert_L, fmap_app.
    split; [set_solver|]. split; [set_solver|]. by apply prefix_app_r.
Qed.

(** C3 (amended): processing a completion removes nothing.  Across every
    iteration of the engine loop the keys of [handles] and of [urls] are
    kept and the easy handles stay in the multi handle (same order, same
    URLs and tokens); a registration only adds. *)
Theorem completion_keeps_entries s tk s' evs :
  iteration s tk = Ok (s', evs) ->
  dom (handles s) ⊆ dom (handles s') /\ dom (urls s) ⊆ dom (urls s') /\
  (e_key <$> multi s) `prefix_of` (e_key <$> multi s').
Proof.
  intros Hit.
  destruct (iteration_spec _ _ _ _ Hit)
    as (ev & s1 & msgs & running & rs & Hp & Hperf & Hs' & _ & _).
  destruct (pull_task_grows _ _ _ Hp) as (Hh & Hu & Hk).
  assert (Hmaps : handles s' = handles s1 /\ urls s' = urls s1).
  { rewrite Hs'. destruct (Z.eqb running 0); done. }
  destruct Hmaps as [-> ->].
  split; [done|]. split; [done|].
  rewrite (perform_keys _ _ _ _ _ Hperf). exact Hk.
Qed.

Lemma completion_keeps_entries_witness :
  iteration sample_start sample_tick = Ok (sample_after.1, sample_after.2) /\
  dom (handles sample_start) ⊆ dom (handles sample_after.1) /\
  dom (urls sample_start) ⊆ dom (urls sample_after.1) /\
  (e_key <$> multi sample_start) `prefix_of` (e_key <$> multi sample_after.1).
Proof.
  split; [exact sample_iteration|].
  exact (completion_keeps_entries sample_start sample_tick sample_after.1 sample_after.2
           sample_iteration).
Defined.

(** C3 fails: after the only submitted transfer has completed and its
    response has been pushed, both maps still hold its entry and the multi
    handle still holds its easy handle. *)
Lemma correlation_table_not_emptied :
  reachable sample_after.1 /\
  task_queue sample_after.1 = [] /\
  count_running (multi sample_after.1) = 0 /\
  response_queue sample_after.1 = [mkResponse url_a 404 body_ok] /\
  size (handles sample_after.1) = 1 /\ size (urls sample_after.1) = 1 /\
  length (multi sample_after.1) = 1.
Proof.
  split.
  - eapply reach_iter; [exact sample_start_reachable | exact sample_iteration].
  - vm_compute. repeat split; reflexivity.
Qed.

(* ------------------------------------------------------------------ *)
(** ** The [DOWNLOADER] mutex *)

Definition not_lock_event (e : Event) : Prop := e <> Lock /\ e <> Unlock.

Lemma iteration_no_lock_events s tk s' evs :
  iteration s tk = Ok (s', evs) -> Forall not_lock_event evs.
Proof.
  intros Hit.
  destruct (iteration_spec _ _ _ _ Hit)
    as (ev & s1 & msgs & running & rs & Hp & _ & _ & _ & ->).
  assert (Hev : not_lock_event ev).
  { unfold pull_task, get_task in Hp.
    destruct (task_queue s), (processing_requests s); simpl in Hp;
      inversion Hp; split; discriminate. }
  apply Forall_app; split; [repeat constructor; try apply Hev; discriminate|].
  apply Forall_app; split.
  - apply Forall_fmap. apply Forall_true. intros x. split; discriminate.
  - destruct (Z.eqb running 0); simpl; [|destruct (processing_requests s1)];
      repeat constructor; discriminate.
Qed.

Lemma thread_runner_no_lock_events s tks :
  Forall not_lock_event (thread_runner s tks).1.
Proof.
  revert s; induction tks as [|tk tks IH]; intros s; simpl; [constructor|].
  destruct (iteration s tk) as [[s' evs]|msg] eqn:Hit; simpl; [|constructor].
  specialize (IH s'). destruct (thread_runner s' tks) as [evs' r]. simpl in *.
  apply Forall_app; split; [eapply iteration_no_lock_events; exact Hit | exact IH].
Qed.

(* ------------------------------------------------------------------ *)
(** ** The [DOWNLOADER] mutex shared by the worker and the Python side *)

Inductive thread_id := Worker | Caller.

(** A call from Python into [CurlDownloader]. *)
Inductive py_call :=
| CallAdd (u : string)      (* add_request(url) *)
| CallFetch (timeout : Z).  (* fetch(timeout) *)

(** The events of one call, from the bodies of [add_request] and [fetch]. *)
Definition call_events (c : py_call) : list Event :=
  match c with
  | CallAdd u => (add_request engine_init u).2
  | CallFetch t => fetch_events t
  end.

Definition call_body (c : py_call) : list Event :=
  match c with
  | CallAdd _ => [TaskSend]
  | CallFetch t => [CloneReceiver; ResponseRecvTimeout t]
  end.

(** Two threads sharing [DOWNLOADER]: who holds the [Mutex], and the
    events each thread has still to perform and has performed. *)
Record Sys := mkSys {
  owner : option thread_id;
  w_todo : list Event;
  w_done : list Event;
  c_todo : list Event;
  c_done : list Event;
}.

Definition sys_init (w c : list Event) : Sys := mkSys None w [] c [].

(** One step of thread [t]: [lock()] blocks while the other thread holds
    the mutex; dropping the guard releases it. *)
Definition step1 (t : thread_id) (o : option thread_id) (todo done : list Event)
    : option thread_id * list Event * list Event :=
  match todo with
  | [] => (o, todo, done)
  | Lock :: rest =>
    match o with
    | None => (Some t, rest, done ++ [Lock])
    | Some _ => (o, todo, done)
    end
  | Unlock :: rest => (None, rest, done ++ [Unlock])
  | e :: rest => (o, rest, done ++ [e])
  end.

Definition step (t : thread_id) (st : Sys) : Sys :=
  match t with
  | Worker =>
    let '(o, td, dn) := step1 Worker (owner st) (w_todo st) (w_done st) in
    mkSys o td dn (c_todo st) (c_done st)
  | Caller =>
    let '(o, td, dn) := step1 Caller (owner st) (c_todo st) (c_done st) in
    mkSys o (w_todo st) (w_done st) td dn
  end.

(** An interleaving chosen by the scheduler. *)
Fixpoint run_sched (sched : list thread_id) (st : Sys) : Sys :=
  match sched with
  | [] => st
  | t :: rest => run_sched rest (step t st)
  end.

Lemma call_events_shape c :
  call_events c = Lock :: call_body c ++ [Unlock] /\ Forall not_lock_event (call_body c).
Proof.
  destruct c; simpl; (split; [reflexivity|]);
    repeat constructor; discriminate.
Qed.

(** Where the worker is: before its [lock()], or inside the loop with
    the guard held and only lock-free events left. *)
Definition worker_inv (evs : list Event) (o : option thread_id) (todo : list Event) : Prop :=
  (todo = Lock :: evs /\ o <> Some Worker) \/
  (o = Some Worker /\ Forall not_lock_event todo).

(** Where the caller is: between calls, or inside one holding the guard. *)
Definition caller_inv (o : option thread_id) (todo : list Event) : Prop :=
  (exists cs, todo = concat (call_events <$> cs) /\ o <> Some Caller) \/
  (exists body cs, todo = body ++ Unlock :: concat (call_events <$> cs) /\
     Forall not_lock_event body /\ o = Some Caller).

Lemma step_inv evs st t :
  Forall not_lock_event evs ->
  worker_inv evs (owner st) (w_todo st) -> caller_inv (owner st) (c_todo st) ->
  worker_inv evs (owner (step t st)) (w_todo (step t st)) /\
  caller_inv (owner (step t st)) (c_todo (step t st)).
Proof.
  intros Hevs. destruct st as [o wt wd ct cd]; simpl. intros Hw Hc.
  destruct t; unfold step; simpl.
  - destruct Hw as [[-> Ho] | [-> Hall]].
    + destruct o as [t|]; simpl.
      * split; [left; done | exact Hc].
      * split; [right; done|].
        destruct Hc as [[cs [-> _]] | (body & cs & -> & _ & Hco)]; [|discriminate].
        left. exists cs. split; [done | discriminate].
    + destruct wt as [|e rest]; simpl; [split; [right; done | exact Hc]|].
      inversion Hall as [|? ? [He1 He2] Hrest]; subst.
      destruct e; try congruence; simpl; (split; [right; done | exact Hc]).
  - destruct Hc as [[cs [-> Hco]] | (body & cs & -> & Hbody & ->)].
    + destruct cs as [|c cs]; simpl; [split; [exact Hw | left; exists []; done]|].
      destruct (call_events_shape c) as [Hce Hb]. rewrite Hce. simpl.
      destruct o as [t|]; simpl.
      * split; [exact Hw|]. left. exists (c :: cs). simpl. rewrite Hce. done.
      * split.
        -- destruct Hw as [[-> _] | [Ho _]]; [left; split; [done | discriminate] | discriminate].
        -- right. exists (call_body c), cs. rewrite <- app_assoc. done.
    + destruct body as [|e body]; simpl.
      * split.
        -- destruct Hw as [[-> _] | [Ho _]]; [left; split; [done | discriminate] | discriminate].
        -- left. exists cs. split; [done | discriminate].
      * inversion Hbody as [|? ? [He1 He2] Hrest]; subst.
        destruct e; try congruence; simpl;
          (split; [exact Hw | right; exists body, cs; done]).
Qed.

Lemma run_sched_inv evs sched st :
  Forall not_lock_event evs ->
  worker_inv evs (owner st) (w_todo st) -> caller_inv (owner st) (c_todo st) ->
  worker_inv evs (owner (run_sched sched st)) (w_todo (run_sched sched st)) /\
  caller_inv (owner (run_sched sched st)) (c_todo (run_sched sched st)).
Proof.
  intros Hevs. revert st; induction sched as [|t sched IH]; intros st Hw Hc; simpl; [done|].
  destruct (step_inv evs st t Hevs Hw Hc) as [Hw' Hc']. exact (IH _ Hw' Hc').
Qed.

(** While the worker holds the guard and has only lock-free events left,
    a caller waiting in [lock()] never gets it. *)
Lemma caller_stays_blocked sched st :
  owner st = Some Worker -> Forall not_lock_event (w_todo st) ->
  (c_todo st = [] \/ head (c_todo st) = Some Lock) ->
  c_done (run_sched sched st) = c_done st /\ owner (run_sched sched st) = Some Worker.
Proof.
  revert st; induction sched as [|t sched IH]; intros st Ho Hw Hc; simpl; [done|].
  destruct st as [o wt wd ct cd]; simpl in *. subst o.
  destruct t; unfold step; simpl.
  - destruct wt as [|e rest]; simpl; [apply IH; done|].
    inversion Hw as [|? ? [He1 He2] Hrest]; subst.
    destruct e; try congruence; simpl; apply IH; done.
  - destruct ct as [|e rest]; simpl; [apply IH; done|].
    destruct Hc as [Hc|Hc]; [discriminate|]. simpl in Hc. injection Hc as ->. simpl.
    apply IH; simpl; [done | exact Hw | right; done].
Qed.

(** C4 (code bug): the thread [pycurse] spawns locks [DOWNLOADER] and
    keeps the guard while [thread_runner] loops; the loop never drops it,
    so the mutex is not held for a single queue operation.  Whatever the
    interleaving with a Python thread calling [add_request] and [fetch],
    and whatever the network does, once the worker holds the mutex the
    caller performs no further event: every later [add_request] or [fetch]
    blocks in [DOWNLOADER.lock()] for ever, and the worker keeps the lock. *)
Theorem worker_lock_blocks_callers_forever tks evs s' calls sched1 sched2 :
  thread_runner engine_init tks = (evs, Some s') ->
  let st := run_sched sched1 (sys_init (worker_thread tks) (concat (call_events <$> calls))) in
  owner st = Some Worker ->
  c_done (run_sched sched2 st) = c_done st /\ owner (run_sched sched2 st) = Some Worker.
Proof.
  intros Hrun st Ho.
  pose proof (thread_runner_no_lock_events engine_init tks) as Hevs.
  rewrite Hrun in Hevs. simpl in Hevs.
  assert (Hw : worker_thread tks = Lock :: evs).
  { unfold worker_thread. rewrite Hrun. rewrite app_nil_r. done. }
  destruct (run_sched_inv evs sched1
              (sys_init (worker_thread tks) (concat (call_events <$> calls))) Hevs
              ltac:(left; split; [exact Hw | discriminate])
              ltac:(left; exists calls; split; [done | discriminate])) as [Hwi Hci].
  fold st in Hwi, Hci.
  destruct Hwi as [[_ Hno] | [_ Hall]]; [congruence|].
  destruct Hci as [[cs [Hct _]] | (body & cs & _ & _ & Hco)]; [|congruence].
  apply caller_stays_blocked; [exact Ho | exact Hall|].
  rewrite Hct. destruct cs as [|c cs]; [left; done|]. right. simpl.
  destruct (call_events_shape c) as [Hce _]. rewrite Hce. done.
Qed.

(** The worker starts, then Python submits a URL and asks for a response. *)
Definition deadlock_calls : list py_call := [CallAdd url_a; CallFetch 1000].
Definition deadlock_start : Sys :=
  run_sched [Worker] (sys_init (worker_thread [tick_idle]) (concat (call_events <$> deadlock_calls))).

Lemma worker_lock_blocks_callers_forever_witness :
  owner deadlock_start = Some Worker /\
  c_done (run_sched [Caller; Worker; Caller; Worker; Caller] deadlock_start) = [] /\
  c_done (run_sched [Caller; Worker; Caller; Worker; Caller] deadlock_start) = c_done deadlock_start /\
  owner (run_sched [Caller; Worker; Caller; Worker; Caller] deadlock_start) = Some Worker.
Proof.
  split; [vm_compute; reflexivity|]. split; [vm_compute; reflexivity|].
  apply (worker_lock_blocks_callers_forever [tick_idle] [TaskTryRecv; Perform]
           (from_option id engine_init (thread_runner engine_init [tick_idle]).2)
           deadlock_calls [Worker] [Caller; Worker; Caller; Worker; Caller]).
  - vm_compute. reflexivity.
  - vm_compute. reflexivity.
Defined.

(** C4 fails: in the second iteration of a loop with nothing to do, the
    worker blocks in [recv_timeout(500ms)] while holding the lock. *)
Lemma worker_blocks_under_lock :
  worker_thread [tick_idle; tick_idle] =
    [Lock; TaskTryRecv; Perform; TaskRecvTimeout 500; Perform] /\
  blocking_while_locked false (worker_thread [tick_idle; tick_idle]) = true.
Proof. vm_compute. split; reflexivity. Qed.

(* ------------------------------------------------------------------ *)
(** ** Blocking cadence of the loop *)

Lemma iteration_mode s tk s' evs :
  engine_inv s -> iteration s tk = Ok (s', evs) ->
  exists ev s1 msgs running (rs : list Response),
    pull_task s = (ev, Ok s1) /\
    perform (multi s1) tk = (multi s', msgs, running) /\
    running = Z.of_nat (count_running (multi s')) /\
    processing_requests s' = negb (Z.eqb running 0) /\
    evs = [ev; Perform] ++ ((fun _ => ResponseSend) <$> rs) ++
          (if processing_requests s' then [MultiWait 10%Z] else []).
Proof.
  intros Hinv Hit.
  destruct (iteration_spec _ _ _ _ Hit)
    as (ev & s1 & msgs & running & rs & Hp & Hperf & Hs' & _ & Hevs).
  destruct (pull_task_spec _ _ _ Hinv Hp) as (Hinv1 & _ & _ & _ & _).
  assert (E : processing_requests s' =
    processing_requests (if Z.eqb running 0
                         then set_processing (set_multi s1 (multi s')) false
                         else set_multi s1 (multi s'))).
  { rewrite Hs' at 1. reflexivity. }
  rewrite <- E in Hevs.
  assert (Hpr : processing_requests s' = negb (Z.eqb running 0)).
  { rewrite E. destruct (Z.eqb running 0) eqn:Hz; simpl; [done|].
    destruct (processing_requests s1) eqn:Hpr1; [done|].
    pose proof (inv_idle _ Hinv1 Hpr1) as Hidle.
    rewrite (perform_idle _ tk Hidle) in Hperf. injection Hperf as _ _ <-. done. }
  exists ev, s1, msgs, running, rs.
  split; [done|]. split; [done|].
  split; [eapply perform_running; exact Hperf|]. split; [exact Hpr|].
  exact Hevs.
Qed.

Lemma fmap_const_replicate {A B} (b : B) (l : list A) :
  (fun _ => b) <$> l = replicate (length l) b.
Proof. induction l as [|x l IH]; simpl; [done|]. f_equal. exact IH. Qed.

(** C5: in every iteration, the task pull is [recv_timeout(500ms)] when
    [processing_requests] is false (idle-poll) and the non-blocking
    [try_recv()] when it is true (draining-new-work); pulling a task sets
    [processing_requests] to true; and after the iteration
    [processing_requests] is false exactly when [multi.perform()] reported
    zero running transfers. *)
Theorem task_pull_follows_mode s tk s' evs :
  reachable s -> iteration s tk = Ok (s', evs) ->
  exists ev s1 msgs running rest,
    pull_task s = (ev, Ok s1) /\
    ev = (if processing_requests s then TaskTryRecv else TaskRecvTimeout 500%Z) /\
    evs = ev :: Perform :: rest /\
    (task_queue s <> [] -> processing_requests s1 = true) /\
    perform (multi s1) tk = (multi s', msgs, running) /\
    (processing_requests s' = false <-> running = 0%Z).
Proof.
  intros Hr Hit. pose proof (reachable_inv _ Hr) as Hinv.
  destruct (iteration_mode _ _ _ _ Hinv Hit)
    as (ev & s1 & msgs & running & rs & Hp & Hperf & _ & Hpr & Hevs).
  destruct (pull_task_spec _ _ _ Hinv Hp) as (_ & Hev & _ & Hpulled & _).
  exists ev, s1, msgs, running, (((fun _ => ResponseSend) <$> rs) ++
          (if processing_requests s' then [MultiWait 10%Z] else [])).
  split; [done|]. split; [done|]. split; [exact Hevs|].
  split; [exact Hpulled|]. split; [exact Hperf|].
  rewrite Hpr. destruct (Z.eqb running 0) eqn:Hz.
  - apply Z.eqb_eq in Hz. done.
  - apply Z.eqb_neq in Hz. done.
Qed.

Lemma task_pull_follows_mode_witness :
  reachable sample_start /\
  iteration sample_start sample_tick = Ok (sample_after.1, sample_after.2) /\
  exists ev s1 msgs running rest,
    pull_task sample_start = (ev, Ok s1) /\
    ev = (if processing_requests sample_start then TaskTryRecv else TaskRecvTimeout 500%Z) /\
    sample_after.2 = ev :: Perform :: rest /\
    (task_queue sample_start <> [] -> processing_requests s1 = true) /\
    perform (multi s1) sample_tick = (multi sample_after.1, msgs, running) /\
    (processing_requests sample_after.1 = false <-> running = 0%Z).
Proof.
  split; [exact sample_start_reachable|]. split; [exact sample_iteration|].
  exact (task_pull_follows_mode sample_start sample_tick sample_after.1 sample_after.2
           sample_start_reachable sample_iteration).
Defined.

(** C9: in every iteration, after the completion messages are handled,
    the loop calls [multi.wait] for 10ms as its last step when at least
    one transfer is still running, and makes no wait call when none is. *)
Theorem multi_wait_iff_active s tk s' evs :
  reachable s -> iteration s tk = Ok (s', evs) ->
  exists ev n,
    is_blocking ev = negb (processing_requests s) /\
    evs = [ev; Perform] ++ replicate n ResponseSend ++
          (if Nat.eqb (count_running (multi s')) 0 then [] else [MultiWait 10%Z]).
Proof.
  intros Hr Hit. pose proof (reachable_inv _ Hr) as Hinv.
  destruct (iteration_mode _ _ _ _ Hinv Hit)
    as (ev & s1 & msgs & running & rs & Hp & Hperf & Hrun & Hpr & Hevs).
  destruct (pull_task_spec _ _ _ Hinv Hp) as (_ & Hev & _ & _ & _).
  exists ev, (length rs). split.
  - rewrite Hev. destruct (processing_requests s); done.
  - rewrite Hevs, (fmap_const_replicate ResponseSend rs), Hpr, Hrun. do 3 f_equal.
    destruct (count_running (multi s')) eqn:Hc; simpl; done.
Qed.

Lemma multi_wait_iff_active_witness :
  reachable sample_start /\
  iteration sample_start sample_tick = Ok (sample_after.1, sample_after.2) /\
  exists ev n,
    is_blocking ev = negb (processing_requests sample_start) /\
    sample_after.2 = [ev; Perform] ++ replicate n ResponseSend ++
      (if Nat.eqb (count_running (multi sample_after.1)) 0 then [] else [MultiWait 10%Z]).
Proof.
  split; [exact sample_start_reachable|]. split; [exact sample_iteration|].
  exact (multi_wait_iff_active sample_start sample_tick sample_after.1 sample_after.2
           sample_start_reachable sample_iteration).
Defined.

(* ------------------------------------------------------------------ *)
(** ** A completion without a table entry *)

Lemma messages_panic s msgs msg :
  messages s msgs = Panic msg -> exists m, process_message s m = Panic msg.
Proof.
  revert s; induction msgs as [|m msgs IH]; intros s Hm; simpl in Hm; [discriminate|].
  destruct (process_message s m) as [r|msg'] eqn:Hr; simpl in Hm.
  - destruct (messages (push_response s r) msgs) as [p|msg''] eqn:Hrest;
      simpl in Hm; [discriminate|].
    injection Hm as ->. destruct (IH _ Hrest) as [m' Hm'].
    exists m'. exact Hm'.
  - injection Hm as ->. exists m. exact Hr.
Qed.

Lemma process_message_no_missing_entry s m :
  engine_inv s -> process_message s m <> Panic missing_entry_msg.
Proof.
  intros Hinv. destruct m as [i res]. unfold process_message.
  destruct (multi s !! i) as [e|] eqn:Hi; [|discriminate].
  destruct (inv_entries _ Hinv _ _ Hi) as [h Hh]. rewrite Hh.
  destruct (Nat.eqb h i); simpl; [|discriminate].
  destruct res; [destruct (e_response_code e)|];
    try destruct (urls s !! e_token e); discriminate.
Qed.

Lemma inv_after_perform s ev s1 tk m2 msgs running :
  engine_inv s -> pull_task s = (ev, Ok s1) ->
  perform (multi s1) tk = (m2, msgs, running) ->
  engine_inv (if Z.eqb running 0 then set_processing (set_multi s1 m2) false
              else set_multi s1 m2).
Proof.
  intros Hinv Hp Hperf.
  destruct (pull_task_spec _ _ _ Hinv Hp) as (Hinv1 & _ & _ & _ & _).
  apply (inv_same_keys s1).
  - exact Hinv1.
  - destruct (Z.eqb running 0); simpl; eapply perform_keys; exact Hperf.
  - destruct (Z.eqb running 0); done.
  - destruct (Z.eqb running 0); done.
  - destruct (Z.eqb running 0); done.
  - destruct (Z.eqb running 0) eqn:Hz; simpl; intros Hpr.
    + apply count_running_zero. apply perform_running in Hperf. lia.
    + exfalso. pose proof (inv_idle _ Hinv1 Hpr) as Hidle.
      rewrite (perform_idle _ tk Hidle) in Hperf. injection Hperf as _ _ <-. done.
Qed.

(** A state whose multi handle has a transfer the maps do not know. *)
Definition orphan_state : Engine :=
  mkEngine [mkEasy url_a 7 [] (Some 200%Z) Finished] ∅ ∅ 8%Z true [] [].

(** C6: a completion message whose token has no entry in [handles] makes
    the engine panic ([expect("the download value should exist in the
    HashMap")]); and from a reachable state no iteration of the loop ever
    panics that way, since every transfer of the multi handle has its
    entry. *)
Theorem missing_entry_is_fatal_and_unreachable :
  (forall s i res e, multi s !! i = Some e -> handles s !! e_token e = None ->
     process_message s (i, res) = Panic missing_entry_msg) /\
  (forall s tk, reachable s -> iteration s tk <> Panic missing_entry_msg).
Proof.
  split.
  - intros s i res e Hi Hh. unfold process_message. rewrite Hi, Hh. done.
  - intros s tk Hr. pose proof (reachable_inv _ Hr) as Hinv.
    unfold iteration. destruct (pull_task s) as [ev o1] eqn:Hp.
    destruct o1 as [s1|msg]; simpl.
    + destruct (perform (multi s1) tk) as [[m2 msgs] running] eqn:Hperf.
      pose proof (inv_after_perform _ _ _ _ _ _ _ Hinv Hp Hperf) as Hinv3.
      destruct (messages _ msgs) as [p|msg] eqn:Hm; simpl; [discriminate|].
      intros [= ->]. destruct (messages_panic _ _ _ Hm) as [m Hpm].
      exact (process_message_no_missing_entry _ m Hinv3 Hpm).
    + unfold pull_task, get_task in Hp.
      destruct (task_queue s) as [|u q]; simpl in Hp; [discriminate|].
      injection Hp as _ Hreg. unfold register in Hreg.
      destruct (url_rejected u); [|discriminate]. injection Hreg as <-. discriminate.
Qed.

Lemma missing_entry_is_fatal_and_unreachable_witness :
  process_message orphan_state (0%nat, TOk) = Panic missing_entry_msg /\
  iteration sample_start sample_tick <> Panic missing_entry_msg.
Proof.
  split.
  - apply (proj1 missing_entry_is_fatal_and_unreachable orphan_state 0%nat TOk
             (mkEasy url_a 7 [] (Some 200%Z) Finished)); reflexivity.
  - apply (proj2 missing_entry_is_fatal_and_unreachable sample_start sample_tick).
    exact sample_start_reachable.
Defined.

(* ------------------------------------------------------------------ *)
(** ** Token assignment *)

Lemma wrap_usize_small z : (0 <= z < 2 ^ 64)%Z -> wrap_usize z = z.
Proof. intros H. unfold wrap_usize. apply Z.mod_small. exact H. Qed.

(** C7: while fewer than 2^64 transfers have been registered (so the
    [usize] counter has not wrapped), the token given to a newly pulled
    task is the number of transfers registered before it: it is larger
    than the token of every earlier transfer, and no entry of [handles]
    uses it yet. *)
Theorem new_token_fresh_and_increasing s tk s' evs u q :
  reachable s -> task_queue s = u :: q ->
  (Z.of_nat (length (multi s)) < 2 ^ 64)%Z ->
  iteration s tk = Ok (s', evs) ->
  exists e,
    multi s' !! length (multi s) = Some e /\ e_url e = u /\
    e_token e = Z.of_nat (length (multi s)) /\
    handles s !! e_token e = None /\
    (forall i e', multi s !! i = Some e' -> (e_token e' < e_token e)%Z).
Proof.
  intros Hr Hq Hbound Hit. pose proof (reachable_inv _ Hr) as Hinv.
  set (n := length (multi s)) in *.
  destruct (iteration_spec _ _ _ _ Hit)
    as (ev & s1 & msgs & running & rs & Hp & Hperf & _ & _ & _).
  assert (Hs1 : multi s1 = multi s ++ [mkEasy u (last_token s) [] None Running]).
  { unfold pull_task, get_task in Hp. rewrite Hq in Hp. simpl in Hp.
    unfold register in Hp. destruct (url_rejected u); simpl in Hp; [discriminate|].
    injection Hp as _ <-. done. }
  assert (Htok : last_token s = Z.of_nat n).
  { rewrite (inv_last_token _ Hinv). apply wrap_usize_small. lia. }
  pose proof (perform_keys _ _ _ _ _ Hperf) as Hk.
  pose proof (f_equal (fun l => l !! n) Hk) as Hkn. simpl in Hkn.
  rewrite !list_lookup_fmap, Hs1, lookup_app_r, Nat.sub_diag in Hkn by lia.
  simpl in Hkn.
  destruct (multi s' !! n) as [e|] eqn:He; simpl in Hkn; [|discriminate].
  assert (Hkey : e_key e = (u, last_token s))
    by exact (f_equal (from_option id (e_key e)) Hkn).
  unfold e_key in Hkey. injection Hkey as Hu Het.
  exists e. split; [done|]. split; [done|]. split; [congruence|].
  split.
  - destruct (handles s !! e_token e) as [j|] eqn:Hh; [|done].
    destruct (inv_handles _ Hinv _ _ Hh) as (e' & He' & Het' & _).
    pose proof (lookup_lt_Some _ _ _ He') as Hj.
    rewrite (inv_tokens _ Hinv _ _ He'), wrap_usize_small in Het' by lia.
    rewrite Het, Htok in Het'. lia.
  - intros i e' Hi. pose proof (lookup_lt_Some _ _ _ Hi) as Hin.
    rewrite (inv_tokens _ Hinv _ _ Hi), wrap_usize_small by lia.
    rewrite Het, Htok. lia.
Qed.

Lemma new_token_fresh_and_increasing_witness :
  exists e,
    multi sample_after.1 !! length (multi sample_start) = Some e /\ e_url e = url_a /\
    e_token e = Z.of_nat (length (multi sample_start)) /\
    handles sample_start !! e_token e = None /\
    (forall i e', multi sample_start !! i = Some e' -> (e_token e' < e_token e)%Z).
Proof.
  apply (new_token_fresh_and_increasing sample_start sample_tick sample_after.1
           sample_after.2 url_a []).
  - exact sample_start_reachable.
  - reflexivity.
  - vm_compute. reflexivity.
  - exact sample_iteration.
Defined.

(* ------------------------------------------------------------------ *)
(** ** [fetch]: timeouts and UTF-8 decoding *)

Definition body_binary : list byte := [xff; xfe].   (* not UTF-8 *)

Example utf8_samples :
  utf8_valid (map byte_val body_ok) = true /\
  utf8_valid (map byte_val body_binary) = false /\
  utf8_valid [226; 130; 172]%Z = true /\        (* U+20AC *)
  utf8_valid [237; 160; 128]%Z = false /\       (* a surrogate *)
  utf8_valid [192; 175]%Z = false.              (* an overlong '/' *)
Proof. vm_compute. repeat split. Qed.

(** C8 (amended): once [fetch] holds the lock, a timeout with no response
    gives [Ok(None)], never an error; a response that arrives is taken off
    the channel and returned as [Some] with its [url], [status_code] and
    body, provided the body is valid UTF-8. *)
Theorem fetch_timeout_or_response :
  fetch_body [] = Ok (None, []) /\
  (forall r q, utf8_valid (map byte_val (data r)) = true ->
     fetch_body (r :: q) =
       Ok (Some (mkResponsePython (url r) (status_code r) (data r)), q)).
Proof.
  split; [done|].
  intros r q Hv. unfold fetch_body, from_utf8. rewrite Hv. done.
Qed.

Lemma fetch_timeout_or_response_witness :
  fetch_body [] = Ok (None, []) /\
  fetch_body [mkResponse url_a 200 body_ok] =
    Ok (Some (mkResponsePython url_a 200 body_ok), []).
Proof.
  split; [exact (proj1 fetch_timeout_or_response)|].
  apply (proj2 fetch_timeout_or_response (mkResponse url_a 200 body_ok) []).
  vm_compute. reflexivity.
Defined.

(** The engine passes any body on: a transfer whose server sends [b]
    yields a response with data [b]. *)
Definition body_start : Engine := set_task_queue engine_init [url_a].
Definition body_tick (b : list byte) : Tick :=
  mkTick [(0%nat, b)] [(0%nat, TOk, Some 200%Z)].

Lemma body_reaches_response_queue (b : list byte) :
  exists s evs, iteration body_start (body_tick b) = Ok (s, evs) /\
    response_queue s = [mkResponse url_a 200 b].
Proof. vm_compute. eexists _, _. split; reflexivity. Qed.

(** C8 fails: a response with a non-UTF-8 body is on the channel, yet
    [fetch] neither returns it nor [None]: it panics. *)
Lemma fetch_panics_on_binary_body :
  exists s, reachable s /\ response_queue s = [mkResponse url_a 200 body_binary] /\
    fetch_body (response_queue s) = Panic from_utf8_msg.
Proof.
  destruct (body_reaches_response_queue body_binary) as (s & evs & Hit & Hq).
  exists s. split; [|split; [exact Hq|]].
  - eapply reach_iter; [exact (reach_submit engine_init url_a reach_init) | exact Hit].
  - rewrite Hq. vm_compute. reflexivity.
Qed.

(** C10: [fetch] panics on every response whose body is not valid UTF-8
    instead of returning a Response or [None], and the engine can put
    any such body on the response channel. *)
Theorem fetch_panics_on_non_utf8 :
  (forall r q, utf8_valid (map byte_val (data r)) = false ->
     fetch_body (r :: q) = Panic from_utf8_msg) /\
  (forall b, utf8_valid (map byte_val b) = false ->
     exists s, reachable s /\ response_queue s = [mkResponse url_a 200 b] /\
       fetch_body (response_queue s) = Panic from_utf8_msg).
Proof.
  split.
  - intros r q Hv. unfold fetch_body, from_utf8. rewrite Hv. done.
  - intros b Hv. destruct (body_reaches_response_queue b) as (s & evs & Hit & Hq).
    exists s. split; [|split; [exact Hq|]].
    + eapply reach_iter; [exact (reach_submit engine_init url_a reach_init) | exact Hit].
    + rewrite Hq. unfold fetch_body, from_utf8. simpl. rewrite Hv. done.
Qed.

Lemma fetch_panics_on_non_utf8_witness :
  fetch_body [mkResponse url_a 200 body_binary] = Panic from_utf8_msg /\
  exists s, reachable s /\ response_queue s = [mkResponse url_a 200 body_binary] /\
    fetch_body (response_queue s) = Panic from_utf8_msg.
Proof.
  split.
  - apply (proj1 fetch_panics_on_non_utf8 (mkResponse url_a 200 body_binary) []).
    vm_compute. reflexivity.
  - apply (proj2 fetch_panics_on_non_utf8 body_binary). vm_compute. reflexivity.
Defined.

(* ================================================================== *)
(** * Further properties of the engine *)

(* ------------------------------------------------------------------ *)
(** ** Tasks are registered once each, in channel order *)

Lemma keys_urls (m m' : list Easy) :
  e_key <$> m' = e_key <$> m -> e_url <$> m' = e_url <$> m.
Proof.
  intros Hk. pose proof (f_equal (fmap fst) Hk) as Hf.
  rewrite <- !list_fmap_compose in Hf. exact Hf.
Qed.

Lemma pull_task_queue s ev s1 :
  pull_task s = (ev, Ok s1) ->
  response_queue s1 = response_queue s /\
  ((task_queue s = [] /\ task_queue s1 = [] /\ multi s1 = multi s) \/
   (exists u q, task_queue s = u :: q /\ task_queue s1 = q /\
      multi s1 = multi s ++ [mkEasy u (last_token s) [] None Running])).
Proof.
  unfold pull_task, get_task. destruct (task_queue s) as [|u q]; simpl.
  - intros [= _ <-]. split; [done|]. left. done.
  - unfold register. destruct (url_rejected u); simpl; [intros [= _]; discriminate|].
    intros [= _ <-]. split; [done|]. right. exists u, q. done.
Qed.

Lemma iteration_tasks s tk s' evs :
  iteration s tk = Ok (s', evs) ->
  (task_queue s = [] /\ task_queue s' = [] /\ e_url <$> multi s' = e_url <$> multi s) \/
  (exists u q, task_queue s = u :: q /\ task_queue s' = q /\
     e_url <$> multi s' = (e_url <$> multi s) ++ [u]).
Proof.
  intros Hit.
  destruct (iteration_spec _ _ _ _ Hit)
    as (ev & s1 & msgs & running & rs & Hp & Hperf & Hs' & _ & _).
  pose proof (keys_urls _ _ (perform_keys _ _ _ _ _ Hperf)) as Hu.
  assert (Hq : task_queue s' = task_queue s1).
  { rewrite Hs'. destruct (Z.eqb running 0); done. }
  destruct (pull_task_queue _ _ _ Hp) as [_ [(H1 & H2 & H3) | (u & q & H1 & H2 & H3)]].
  - left. rewrite Hq, Hu, H3. done.
  - right. exists u, q. rewrite Hq, Hu, H3, fmap_app. done.
Qed.

(** X1: over any run of the engine loop, the transfers it creates are
    for the first [k] queued tasks, in channel order, each exactly once,
    and those [k] tasks (at most one per iteration) leave the channel. *)
Theorem run_registers_tasks_in_order s tks evs s' :
  thread_runner s tks = (evs, Some s') ->
  exists k, k <= length tks /\
    e_url <$> multi s' = (e_url <$> multi s) ++ take k (task_queue s) /\
    task_queue s' = drop k (task_queue s).
Proof.
  revert s evs; induction tks as [|tk tks IH]; intros s evs Hrun; simpl in Hrun.
  - injection Hrun as _ <-. exists 0. rewrite app_nil_r. done.
  - destruct (iteration s tk) as [[s1 evs1]|msg] eqn:Hit; [|discriminate].
    destruct (thread_runner s1 tks) as [evs2 r] eqn:Hrest.
    injection Hrun as _ ->.
    destruct (IH _ _ Hrest) as (k & Hk & Hu & Hq).
    destruct (iteration_tasks _ _ _ _ Hit) as [(H1 & H2 & H3) | (u & q & H1 & H2 & H3)].
    + exists k. rewrite H1. rewrite H2 in Hu, Hq. rewrite Hu, H3.
      simpl. split; [lia|]. done.
    + exists (S k). rewrite H1. rewrite H2 in Hu, Hq. rewrite Hu, H3.
      simpl. split; [lia|]. rewrite <- app_assoc. done.
Qed.

Definition fifo_start : Engine := set_task_queue engine_init [url_a; url_b].

Definition fifo_run : list Event * option Engine :=
  thread_runner fifo_start [tick_idle; tick_idle].
Definition fifo_end : Engine := from_option id engine_init fifo_run.2.

Lemma run_registers_tasks_in_order_witness :
  exists k, k <= 2 /\
    e_url <$> multi fifo_end = (e_url <$> multi fifo_start) ++ take k (task_queue fifo_start) /\
    task_queue fifo_end = drop k (task_queue fifo_start).
Proof.
  apply (run_registers_tasks_in_order fifo_start [tick_idle; tick_idle] fifo_run.1).
  vm_compute. reflexivity.
Defined.

(* ------------------------------------------------------------------ *)
(** ** One response per finished transfer *)

(** Transfer [i] of the multi handle has finished. *)
Definition finished_at (m : list Easy) (i : nat) : bool :=
  match m !! i with Some e => negb (is_running e) | None => false end.

(** [r] is the response [thread_runner] builds for transfer [i] of [m]:
    the transfer's URL, and either the status and body it ended with
    ([Ok(())]) or [-1] and no body (a transport error). *)
Definition transfer_response (m : list Easy) (i : nat) (r : Response) : Prop :=
  exists e, m !! i = Some e /\ is_running e = false /\ url r = e_url e /\
    ((Some (status_code r) = e_response_code e /\ data r = e_body e) \/
     (status_code r = (-1)%Z /\ data r = [])).

(** What [multi.perform()] has done so far to the transfers [m0] it
    started from, the network having reported the completions [D]. *)
Definition completions_inv (D : list (nat * transfer_result * option Z))
    (m0 m : list Easy) (msgs : list (nat * transfer_result)) : Prop :=
  length m = length m0 /\
  NoDup msgs.*1 /\
  (forall i, i ∈ msgs.*1 <-> finished_at m i = true /\ finished_at m0 i = false) /\
  (forall i, finished_at m0 i = true -> m !! i = m0 !! i) /\
  (forall i res, (i, res) ∈ msgs ->
     exists e, m !! i = Some e /\ (i, res, e_response_code e) ∈ D).

Lemma finished_at_Some (m : list Easy) i e :
  m !! i = Some e -> finished_at m i = negb (is_running e).
Proof. unfold finished_at. intros ->. done. Qed.

Lemma finish_one_step D m0 m msgs d :
  d ∈ D -> completions_inv D m0 m msgs ->
  completions_inv D m0 (finish_one (m, msgs) d).1 (finish_one (m, msgs) d).2.
Proof.
  destruct d as [[i res] code]. intros HD Hinv. unfold finish_one.
  destruct (m !! i) as [e|] eqn:Hi; [|exact Hinv].
  destruct (is_running e) eqn:Hr; [|exact Hinv]. simpl.
  destruct Hinv as (Hlen & Hnd & Hmem & Hst & Hcode).
  assert (Hil : i < length m) by (eapply lookup_lt_Some; exact Hi).
  assert (Hfi : finished_at m i = false) by (rewrite (finished_at_Some _ _ _ Hi), Hr; done).
  assert (Hne : forall j, finished_at m j = true -> j <> i) by (intros j Hj ->; congruence).
  assert (Hlook : forall j, j <> i -> <[i := finish e code]> m !! j = m !! j)
    by (intros j Hj; apply list_lookup_insert_ne; congruence).
  assert (Hfin_ne : forall j, j <> i ->
            finished_at (<[i := finish e code]> m) j = finished_at m j)
    by (intros j Hj; unfold finished_at; rewrite Hlook by done; done).
  assert (Hfin_i : finished_at (<[i := finish e code]> m) i = true)
    by (unfold finished_at; rewrite list_lookup_insert_eq by done; done).
  assert (H0i : finished_at m0 i = false).
  { destruct (finished_at m0 i) eqn:H0; [|done].
    pose proof (Hst _ H0) as Hs. unfold finished_at in H0, Hfi. rewrite Hs in Hfi. congruence. }
  assert (Hmsg : forall j r, (j, r) ∈ msgs -> finished_at m j = true).
  { intros j r Hjr. apply (proj1 (Hmem j)).
    change j with (j, r).1. by apply list_elem_of_fmap_2. }
  split; [rewrite length_insert; done|].
  split.
  { rewrite fmap_app. simpl. apply NoDup_app. split; [done|].
    split; [|apply NoDup_singleton].
    intros j Hj. apply Hmem in Hj as [Hj _]. rewrite list_elem_of_singleton.
    apply Hne. exact Hj. }
  split.
  { intros j. rewrite fmap_app, elem_of_app. simpl. rewrite list_elem_of_singleton.
    destruct (decide (j = i)) as [->|Hji].
    - rewrite Hfin_i, H0i. split; [done|]. intros _. right. done.
    - rewrite Hfin_ne by done. rewrite <- Hmem.
      split; [intros [H|H]; [exact H | contradiction] | intros H; left; exact H]. }
  split.
  { intros j Hj. rewrite Hlook; [exact (Hst _ Hj)|]. intros ->. congruence. }
  intros j r Hjr. apply elem_of_app in Hjr as [Hjr|Hjr].
  - destruct (Hcode _ _ Hjr) as (e' & He' & HD').
    exists e'. rewrite Hlook by (apply Hne; exact (Hmsg _ _ Hjr)). done.
  - apply list_elem_of_singleton in Hjr. injection Hjr as -> ->.
    exists (finish e code). rewrite list_lookup_insert_eq by done. split; [done|]. exact HD.
Qed.

Lemma fold_finish_one_completions D m0 ds m msgs :
  Forall (fun d => d ∈ D) ds -> completions_inv D m0 m msgs ->
  completions_inv D m0 (fold_left finish_one ds (m, msgs)).1
    (fold_left finish_one ds (m, msgs)).2.
Proof.
  revert m msgs; induction ds as [|d ds IH]; intros m msgs Hds Hinv; [exact Hinv|].
  change (fold_left finish_one (d :: ds) (m, msgs))
    with (fold_left finish_one ds (finish_one (m, msgs) d)).
  inversion Hds as [|? ? Hd Hds']; subst.
  pose proof (finish_one_step D m0 m msgs d Hd Hinv) as H.
  destruct (finish_one (m, msgs) d) as [m' msgs'].
  exact (IH m' msgs' Hds' H).
Qed.

(** [Collector::write] only extends the body of a running transfer. *)
Lemma write_chunk_fin (m : list Easy) w :
  length (write_chunk m w) = length m /\
  (forall j, finished_at (write_chunk m w) j = finished_at m j) /\
  (forall j, finished_at m j = true -> write_chunk m w !! j = m !! j).
Proof.
  destruct w as [i chunk]. unfold write_chunk.
  destruct (m !! i) as [e|] eqn:Hi; [|split; [done | split; intros; done]].
  destruct (is_running e) eqn:Hr; [|split; [done | split; intros; done]].
  assert (Hil : i < length m) by (eapply lookup_lt_Some; exact Hi).
  split; [apply length_insert|]. split.
  - intros j. unfold finished_at. destruct (decide (j = i)) as [->|Hji].
    + rewrite list_lookup_insert_eq, Hi by done. done.
    + rewrite list_lookup_insert_ne by congruence. done.
  - intros j Hj. apply list_lookup_insert_ne. intros ->.
    unfold finished_at in Hj. rewrite Hi, Hr in Hj. discriminate.
Qed.

Lemma fold_write_chunk_fin ws (m : list Easy) :
  length (fold_left write_chunk ws m) = length m /\
  (forall j, finished_at (fold_left write_chunk ws m) j = finished_at m j) /\
  (forall j, finished_at m j = true -> fold_left write_chunk ws m !! j = m !! j).
Proof.
  revert m; induction ws as [|w ws IH]; intros m; simpl; [split; [done | split; intros; done]|].
  destruct (write_chunk_fin m w) as (H1 & H2 & H3).
  destruct (IH (write_chunk m w)) as (I1 & I2 & I3).
  split; [lia|]. split.
  - intros j. rewrite I2. apply H2.
  - intros j Hj. rewrite I3; [apply H3; exact Hj|]. rewrite H2. exact Hj.
Qed.

(** The completion messages of [multi.perform()] name each transfer that
    finished during the call exactly once and no other, and carry the
    response code the network reported; a transfer that had finished
    before is left as it was. *)
Lemma perform_completions (m : list Easy) tk m2 msgs running :
  perform m tk = (m2, msgs, running) -> completions_inv (tk_done tk) m m2 msgs.
Proof.
  unfold perform.
  destruct (fold_write_chunk_fin (tk_writes tk) m) as (W1 & W2 & W3).
  set (m1 := fold_left write_chunk (tk_writes tk) m) in *.
  assert (H0 : completions_inv (tk_done tk) m1 m1 []).
  { split; [done|]. split; [constructor|]. split; [|split; [intros; done|]].
    - intros i. simpl. split; [intros Hi; inversion Hi | intros [H1 H2]; congruence].
    - intros i res Hi. inversion Hi. }
  pose proof (fold_finish_one_completions (tk_done tk) m1 (tk_done tk) m1 []
    ltac:(apply Forall_forall; intros x Hx; exact Hx) H0) as H.
  destruct (fold_left finish_one (tk_done tk) (m1, [])) as [m2' msgs'].
  intros [= <- <- _]. simpl in H.
  destruct H as (Hlen & Hnd & Hmem & Hst & Hcode).
  split; [lia|]. split; [done|]. split; [|split; [|done]].
  - intros i. rewrite Hmem, W2. done.
  - intros i Hi. rewrite Hst; [apply W3; exact Hi|]. rewrite W2. exact Hi.
Qed.

(** Pulling a task adds a running transfer and touches no other. *)
Lemma pull_task_transfers s ev s1 :
  pull_task s = (ev, Ok s1) ->
  (forall j, finished_at (multi s1) j = finished_at (multi s) j) /\
  (forall j, finished_at (multi s) j = true -> multi s1 !! j = multi s !! j).
Proof.
  intros Hp.
  destruct (pull_task_queue _ _ _ Hp) as [_ [(_ & _ & ->) | (u & q & _ & _ & ->)]];
    [split; intros; done|].
  split.
  - intros j. unfold finished_at. destruct (multi s !! j) as [e|] eqn:Hj.
    + rewrite (lookup_app_l_Some _ _ _ _ Hj). done.
    + apply lookup_ge_None in Hj. rewrite lookup_app_r by lia.
      destruct (j - length (multi s)) as [|k]; simpl; [done|]. destruct k; done.
  - intros j Hj. unfold finished_at in Hj.
    destruct (multi s !! j) as [e|] eqn:Hjs; [|discriminate].
    rewrite (lookup_app_l_Some _ _ _ _ Hjs). done.
Qed.

Lemma Forall2_with_elem {A B} (P : A -> B -> Prop) l k :
  Forall2 P l k -> Forall2 (fun x y => x ∈ l /\ P x y) l k.
Proof.
  induction 1 as [|x y l k Hxy _ IH]; constructor.
  - split; [apply list_elem_of_here | exact Hxy].
  - eapply Forall2_impl; [exact IH|]. intros a b [Ha Hab].
    split; [by apply list_elem_of_further | exact Hab].
Qed.

(** One iteration: the responses it pushes are, one each, those of the
    transfers that finished in it. *)
Lemma iteration_completions s tk s' evs :
  engine_inv s -> iteration s tk = Ok (s', evs) ->
  exists idxs rs,
    response_queue s' = response_queue s ++ rs /\
    NoDup idxs /\
    (forall i, i ∈ idxs <-> finished_at (multi s') i = true /\ finished_at (multi s) i = false) /\
    Forall2 (transfer_response (multi s')) idxs rs /\
    (forall i, finished_at (multi s) i = true -> multi s' !! i = multi s !! i).
Proof.
  intros Hinv Hit. pose proof (inv_iteration _ _ _ _ Hinv Hit) as Hinv'.
  destruct (iteration_responses _ _ _ _ Hinv Hit)
    as (ev & s1 & msgs & running & rs & Hp & Hperf & Hrq & Hall).
  destruct (pull_task_transfers _ _ _ Hp) as [P1 P2].
  destruct (perform_completions _ _ _ _ _ Hperf) as (_ & Hnd & Hmem & Hst & _).
  exists msgs.*1, rs. split; [done|]. split; [done|]. split.
  - intros i. rewrite Hmem, P1. done.
  - split.
    + apply Forall2_fmap_l. eapply Forall2_impl; [exact (Forall2_with_elem _ _ _ Hall)|].
      intros [i res] r [Hin Hr]. simpl.
      destruct (process_message_url _ _ _ _ Hinv' Hr) as (e & Hi & Hu).
      destruct (process_message_status _ _ _ _ _ Hi Hr) as [Hok Herr].
      assert (Hfin : finished_at (multi s') i = true).
      { apply (proj1 (Hmem i)). change i with (i, res).1. by apply list_elem_of_fmap_2. }
      rewrite (finished_at_Some _ _ _ Hi) in Hfin.
      exists e. split; [done|]. split; [by destruct (is_running e)|]. split; [done|].
      destruct res as [|c]; [left; by apply Hok | right; by eapply Herr].
    + intros i Hi. rewrite Hst; [apply P2; exact Hi|]. rewrite P1. exact Hi.
Qed.

(** X2: over any run of the engine loop from a reachable state, the
    responses pushed on the response channel correspond one to one, in
    the order they are pushed, to the transfers that finished during the
    run: each finished transfer gives exactly one response, carrying its
    URL and either its status and body or [-1] and no body, and no other
    transfer gives one.  A transfer that had finished before the run is
    not touched again. *)
Theorem run_one_response_per_finished_transfer s tks evs s' :
  reachable s -> thread_runner s tks = (evs, Some s') ->
  exists idxs rs,
    response_queue s' = response_queue s ++ rs /\
    NoDup idxs /\
    (forall i, i ∈ idxs <-> finished_at (multi s') i = true /\ finished_at (multi s) i = false) /\
    Forall2 (transfer_response (multi s')) idxs rs /\
    (forall i, finished_at (multi s) i = true -> multi s' !! i = multi s !! i).
Proof.
  revert s evs; induction tks as [|tk tks IH]; intros s evs Hr Hrun; simpl in Hrun.
  - injection Hrun as _ <-. exists [], []. rewrite app_nil_r.
    split; [done|]. split; [constructor|]. split; [|split; [constructor | intros; done]].
    intros i. split; [intros Hi; inversion Hi | intros [H1 H2]; congruence].
  - destruct (iteration s tk) as [[s1 evs1]|msg] eqn:Hit; [|discriminate].
    destruct (thread_runner s1 tks) as [evs2 r] eqn:Hrest. injection Hrun as _ ->.
    destruct (iteration_completions _ _ _ _ (reachable_inv _ Hr) Hit)
      as (is1 & rs1 & Q1 & N1 & M1 & F1 & S1).
    destruct (IH _ _ (reach_iter _ _ _ _ Hr Hit) Hrest) as (is2 & rs2 & Q2 & N2 & M2 & F2 & S2).
    assert (Hmono1 : forall i, finished_at (multi s) i = true -> finished_at (multi s1) i = true).
    { intros i Hi. pose proof (S1 i Hi) as E. unfold finished_at in *. rewrite E. exact Hi. }
    assert (Hmono2 : forall i, finished_at (multi s1) i = true -> finished_at (multi s') i = true).
    { intros i Hi. pose proof (S2 i Hi) as E. unfold finished_at in *. rewrite E. exact Hi. }
    exists (is1 ++ is2), (rs1 ++ rs2).
    split; [rewrite Q2, Q1, app_assoc; done|].
    split.
    { apply NoDup_app. split; [done|]. split; [|done].
      intros i Hi1 Hi2. apply M1 in Hi1 as [Hf1 _]. apply M2 in Hi2 as [_ Hf2]. congruence. }
    split.
    { intros i. rewrite elem_of_app, M1, M2.
      specialize (Hmono1 i). specialize (Hmono2 i).
      destruct (finished_at (multi s) i), (finished_at (multi s1) i), (finished_at (multi s') i);
        intuition congruence. }
    split.
    { apply Forall2_app; [|exact F2].
      eapply Forall2_impl; [exact (Forall2_with_elem _ _ _ F1)|].
      intros i r [Hi Hir]. apply M1 in Hi as [Hf1 _].
      unfold transfer_response in *. rewrite (S2 i Hf1). exact Hir. }
    intros i Hi. rewrite (S2 i (Hmono1 i Hi)). apply S1. exact Hi.
Qed.

Definition two_done_ticks : list Tick :=
  [tick_idle; mkTick [(1%nat, body_ok)] [(1%nat, TOk, Some 404%Z); (0%nat, TErr 6, None)]].
Definition two_done_run : list Event * option Engine := thread_runner two_tasks two_done_ticks.
Definition two_done_end : Engine := from_option id engine_init two_done_run.2.

Lemma two_tasks_reachable : reachable two_tasks.
Proof. exact (reach_submit _ url_b (reach_submit _ url_a reach_init)). Qed.

Lemma run_one_response_per_finished_transfer_witness :
  exists idxs rs,
    response_queue two_done_end = response_queue two_tasks ++ rs /\
    NoDup idxs /\
    (forall i, i ∈ idxs <->
       finished_at (multi two_done_end) i = true /\ finished_at (multi two_tasks) i = false) /\
    Forall2 (transfer_response (multi two_done_end)) idxs rs /\
    (forall i, finished_at (multi two_tasks) i = true ->
       multi two_done_end !! i = multi two_tasks !! i).
Proof.
  apply (run_one_response_per_finished_transfer two_tasks two_done_ticks two_done_run.1).
  - exact two_tasks_reachable.
  - vm_compute. reflexivity.
Defined.
(* ------------------------------------------------------------------ *)
(** ** How the engine loop can panic *)

Lemma finish_one_in_range (acc : list Easy * list (nat * transfer_result)) d :
  Forall (fun msg => msg.1 < length acc.1) acc.2 ->
  length (finish_one acc d).1 = length acc.1 /\
  Forall (fun msg => msg.1 < length (finish_one acc d).1) (finish_one acc d).2.
Proof.
  destruct acc as [m msgs], d as [[i res] code]; simpl. intros Hall.
  destruct (m !! i) as [e|] eqn:Hi; simpl; [|done].
  destruct (is_running e); simpl; [|done].
  rewrite length_insert. split; [done|].
  apply Forall_app; split; [exact Hall|].
  constructor; [|constructor]. simpl. eapply lookup_lt_Some; exact Hi.
Qed.

Lemma perform_msgs_in_range (m : list Easy) tk m2 msgs running :
  perform m tk = (m2, msgs, running) -> Forall (fun msg => msg.1 < length m2) msgs.
Proof.
  unfold perform.
  assert (Hgen : forall ds (acc : list Easy * list (nat * transfer_result)),
    Forall (fun msg => msg.1 < length acc.1) acc.2 ->
    Forall (fun msg => msg.1 < length (fold_left finish_one ds acc).1)
      (fold_left finish_one ds acc).2).
  { induction ds as [|d ds IH]; intros acc Hacc; simpl; [done|].
    apply IH. apply finish_one_in_range. exact Hacc. }
  pose proof (Hgen (tk_done tk) (fold_left write_chunk (tk_writes tk) m, []) (Forall_nil_2 _))
    as H.
  destruct (fold_left finish_one _ _) as [m2' msgs'].
  intros [= <- <- _]. exact H.
Qed.

Lemma messages_panic_in s msgs msg :
  messages s msgs = Panic msg -> exists m, m ∈ msgs /\ process_message s m = Panic msg.
Proof.
  revert s; induction msgs as [|m msgs IH]; intros s Hm; simpl in Hm; [discriminate|].
  destruct (process_message s m) as [r|msg'] eqn:Hr; simpl in Hm.
  - destruct (messages (push_response s r) msgs) as [p|msg''] eqn:Hrest;
      simpl in Hm; [discriminate|].
    injection Hm as ->. destruct (IH _ Hrest) as (m' & Hin & Hm').
    exists m'. split; [by apply list_elem_of_further|]. exact Hm'.
  - injection Hm as ->. exists m. split; [apply list_elem_of_here|]. exact Hr.
Qed.

(** While the token counter has not wrapped, the [handles] entry of a
    transfer's token is that transfer. *)
Lemma handles_of_token s i e :
  engine_inv s -> (Z.of_nat (length (multi s)) < 2 ^ 64)%Z ->
  multi s !! i = Some e -> handles s !! e_token e = Some i.
Proof.
  intros Hinv Hb Hi.
  destruct (inv_entries _ Hinv _ _ Hi) as [j Hj]. rewrite Hj. f_equal.
  destruct (inv_handles _ Hinv _ _ Hj) as (e' & He' & Het' & _).
  pose proof (lookup_lt_Some _ _ _ Hi) as Hil.
  pose proof (lookup_lt_Some _ _ _ He') as Hjl.
  rewrite (inv_tokens _ Hinv _ _ Hi), (inv_tokens _ Hinv _ _ He') in Het'.
  rewrite !wrap_usize_small in Het' by lia. lia.
Qed.

Lemma process_message_outcome s i res :
  engine_inv s -> (Z.of_nat (length (multi s)) < 2 ^ 64)%Z -> i < length (multi s) ->
  (exists r, process_message s (i, res) = Ok r) \/
  process_message s (i, res) = Panic "HTTP request finished without status code".
Proof.
  intros Hinv Hb Hil.
  destruct (lookup_lt_is_Some_2 _ _ Hil) as [e Hi].
  unfold process_message. rewrite Hi, (handles_of_token _ _ _ Hinv Hb Hi), Nat.eqb_refl.
  simpl.
  destruct (inv_handles _ Hinv _ _ (handles_of_token _ _ _ Hinv Hb Hi)) as (e' & He' & _ & Hu).
  rewrite Hi in He'. injection He' as <-. rewrite Hu.
  destruct res; [destruct (e_response_code e)|]; eauto.
Qed.

Lemma process_message_status_panic s i res :
  process_message s (i, res) = Panic "HTTP request finished without status code" ->
  exists e, multi s !! i = Some e /\ res = TOk /\ e_response_code e = None.
Proof.
  unfold process_message. repeat case_match; intros Hpm; simplify_eq; eauto.
Qed.

(** X3: while fewer than 2^64 transfers have been registered, an
    iteration of the engine loop from a reachable state panics for one of
    two reasons only: the URL it pulls off the task channel is refused by
    [request.url(&url)] (a NUL byte, or more than [CURL_MAX_INPUT_LENGTH]
    bytes), or the network reported a transfer as done with [Ok(())] but
    without an HTTP status.  The token lookup, the [result_for2] check and
    the [urls] index of the completion handler never fail.  (Failures of
    the libcurl calls [perform], [wait], [add2] and [useragent] are not
    part of the model: they are taken to succeed.) *)
Theorem iteration_panics_only_on_url_or_status s tk msg :
  reachable s -> (Z.of_nat (length (multi s)) + 1 < 2 ^ 64)%Z ->
  iteration s tk = Panic msg ->
  (exists u q, task_queue s = u :: q /\ url_rejected u = true /\
     msg = "request.url(&url).unwrap()"%string) \/
  (msg = "HTTP request finished without status code"%string /\
     exists i, (i, TOk, None) ∈ tk_done tk).
Proof.
  intros Hr Hb. pose proof (reachable_inv _ Hr) as Hinv.
  unfold iteration. destruct (pull_task s) as [ev o1] eqn:Hp.
  destruct o1 as [s1|msg1]; simpl.
  - destruct (perform (multi s1) tk) as [[m2 msgs] running] eqn:Hperf.
    pose proof (inv_after_perform _ _ _ _ _ _ _ Hinv Hp Hperf) as Hinv3.
    set (s3 := if Z.eqb running 0 then set_processing (set_multi s1 m2) false
               else set_multi s1 m2) in *.
    assert (Hm3 : multi s3 = m2) by (unfold s3; destruct (Z.eqb running 0); done).
    assert (Hlen : length m2 <= S (length (multi s))).
    { rewrite <- (length_fmap e_key m2), (perform_keys _ _ _ _ _ Hperf), length_fmap.
      destruct (pull_task_queue _ _ _ Hp) as [_ [(_ & _ & ->) | (u & q & _ & _ & ->)]];
        [lia | rewrite length_app; simpl; lia]. }
    destruct (messages s3 msgs) as [p|msg2] eqn:Hm; simpl; [discriminate|].
    intros [= <-]. destruct (messages_panic_in _ _ _ Hm) as ([i res] & Hin & Hpm).
    assert (Hil : i < length (multi s3)).
    { rewrite Hm3. pose proof (perform_msgs_in_range _ _ _ _ _ Hperf) as Hall.
      rewrite Forall_forall in Hall. exact (Hall _ Hin). }
    destruct (process_message_outcome s3 i res Hinv3 ltac:(rewrite Hm3; lia) Hil)
      as [[r Hok] | Hpanic]; rewrite Hpm in *; [discriminate|].
    right. injection Hpanic as ->. split; [done|].
    destruct (process_message_status_panic _ _ _ Hpm) as (e & He & -> & Hc).
    destruct (perform_completions _ _ _ _ _ Hperf) as (_ & _ & _ & _ & Hcode).
    destruct (Hcode _ _ Hin) as (e' & He' & HD).
    rewrite Hm3, He' in He. injection He as ->. rewrite Hc in HD.
    exists i. exact HD.
  - intros [= <-]. left. unfold pull_task, get_task in Hp.
    destruct (task_queue s) as [|u q] eqn:Hq; simpl in Hp; [discriminate|].
    injection Hp as _ Hreg. unfold register in Hreg.
    destruct (url_rejected u) eqn:Hu; [|discriminate]. injection Hreg as <-.
    exists u, q. done.
Qed.

Definition status_missing_tick : Tick := mkTick [] [(0%nat, TOk, None)].

Lemma iteration_panics_only_on_url_or_status_witness :
  iteration sample_start status_missing_tick =
    Panic "HTTP request finished without status code" /\
  ((exists u q, task_queue sample_start = u :: q /\ url_rejected u = true /\
      "HTTP request finished without status code" = "request.url(&url).unwrap()"%string) \/
   ("HTTP request finished without status code" =
      "HTTP request finished without status code"%string /\
    exists i, (i, TOk, None) ∈ tk_done status_missing_tick)).
Proof.
  split; [vm_compute; reflexivity|].
  apply (iteration_panics_only_on_url_or_status sample_start status_missing_tick).
  - exact sample_start_reachable.
  - vm_compute. reflexivity.
  - vm_compute. reflexivity.
Defined.

(** X4: a URL holding a NUL byte is accepted by [add_request], but the
    iteration that pulls it panics at [request.url(&url).unwrap()],
    whatever the network does, and so ends the worker thread. *)
Theorem nul_url_kills_worker s u tk :
  task_queue s = [] -> has_nul u = true ->
  (add_request s u).2 = [Lock; TaskSend; Unlock] /\
  iteration (add_request s u).1 tk = Panic "request.url(&url).unwrap()".
Proof.
  intros Hq Hn. split; [done|].
  unfold iteration, pull_task, get_task, add_request. simpl. rewrite Hq. simpl.
  unfold register, url_rejected. rewrite Hn. done.
Qed.

Definition url_nul : string := String Ascii.zero "x".

Lemma nul_url_kills_worker_witness :
  (add_request engine_init url_nul).2 = [Lock; TaskSend; Unlock] /\
  iteration (add_request engine_init url_nul).1 tick_idle = Panic "request.url(&url).unwrap()".
Proof. apply nul_url_kills_worker; reflexivity. Defined.

(* ------------------------------------------------------------------ *)
(** ** Blocking pulls happen only when nothing runs *)

(** X5: from a reachable state, an iteration that waits up to 500ms on
    the task channel does so only when no transfer is running, so a
    running transfer is never held up by the idle task wait. *)
Theorem idle_pull_only_without_transfers s tk s' evs :
  reachable s -> iteration s tk = Ok (s', evs) ->
  head evs = Some (TaskRecvTimeout 500%Z) -> count_running (multi s) = 0.
Proof.
  intros Hr Hit Hhead. pose proof (reachable_inv _ Hr) as Hinv.
  destruct (iteration_spec _ _ _ _ Hit)
    as (ev & s1 & msgs & running & rs & Hp & _ & _ & _ & Hevs).
  destruct (pull_task_spec _ _ _ Hinv Hp) as (_ & Hev & _ & _ & _).
  rewrite Hevs in Hhead. simpl in Hhead. injection Hhead as ->.
  destruct (processing_requests s) eqn:Hpr; [discriminate|].
  apply count_running_zero. exact (inv_idle _ Hinv Hpr).
Qed.

Definition idle_after_first : Engine := set_processing engine_init false.

Lemma idle_pull_only_without_transfers_witness :
  count_running (multi idle_after_first) = 0.
Proof.
  apply (idle_pull_only_without_transfers idle_after_first tick_idle idle_after_first
           [TaskRecvTimeout 500; Perform]).
  - exact (reach_iter engine_init tick_idle idle_after_first [TaskTryRecv; Perform]
             reach_init eq_refl).
  - reflexivity.
  - reflexivity.
Defined.

(* ------------------------------------------------------------------ *)
(** ** ASCII bodies always decode *)

Lemma utf8_valid_ascii (l : list Z) :
  Forall (fun b => (0 <= b < 128)%Z) l -> utf8_valid l = true.
Proof.
  induction 1 as [|b l Hb Hl IH]; [done|]. simpl.
  destruct (Z.ltb_spec b 128); [exact IH | lia].
Qed.

(** X6: [fetch] never panics on a response whose body is all ASCII, in
    particular on the empty body of every transport failure: it returns
    the response with its URL, status and body unchanged. *)
Theorem fetch_returns_ascii_body r q :
  Forall (fun b => (byte_val b < 128)%Z) (data r) ->
  fetch_body (r :: q) = Ok (Some (mkResponsePython (url r) (status_code r) (data r)), q).
Proof.
  intros Ha. unfold fetch_body, from_utf8.
  rewrite utf8_valid_ascii; [done|].
  apply Forall_fmap. eapply Forall_impl; [exact Ha|].
  intros b Hb. simpl. unfold byte_val in *. lia.
Qed.

Lemma fetch_returns_ascii_body_witness :
  fetch_body [mkResponse url_a 200 body_ok] =
    Ok (Some (mkResponsePython url_a 200 body_ok), []).
Proof. apply fetch_returns_ascii_body. vm_compute. repeat constructor; discriminate. Defined.

(* ------------------------------------------------------------------ *)
(** ** An idle worker *)

Lemma iteration_idle tk :
  iteration idle_after_first tk = Ok (idle_after_first, [TaskRecvTimeout 500; Perform]).
Proof.
  unfold iteration. simpl.
  rewrite (perform_idle [] tk (Forall_nil_2 _)). reflexivity.
Qed.

Lemma thread_runner_idle tks :
  thread_runner idle_after_first tks =
    (concat (replicate (length tks) [TaskRecvTimeout 500%Z; Perform]), Some idle_after_first).
Proof.
  induction tks as [|tk tks IH]; [done|].
  simpl. rewrite iteration_idle, IH. done.
Qed.

(** X7: with no task ever submitted, whatever the network reports, the
    worker makes one non-blocking pull and then, in every further
    iteration, one 500ms blocking pull and one [perform]: it never calls
    [multi.wait], never sends a response, and never panics. *)
Theorem idle_worker_events tk tks :
  worker_thread (tk :: tks) =
    Lock :: TaskTryRecv :: Perform ::
      concat (replicate (length tks) [TaskRecvTimeout 500%Z; Perform]).
Proof.
  unfold worker_thread. simpl.
  assert (Hfirst : iteration engine_init tk = Ok (idle_after_first, [TaskTryRecv; Perform])).
  { unfold iteration. simpl.
    rewrite (perform_idle [] tk (Forall_nil_2 _)). reflexivity. }
  rewrite Hfirst, thread_runner_idle. simpl. rewrite app_nil_r. done.
Qed.
